(** * mygrep: the pattern engine (pattern.c) and the pattern parser (mygrep.c)

    A shallow embedding of the two C files of Homework6 and the properties
    of the mark-propagation matcher and of the recursive-descent parser. *)

From Stdlib Require Import ZArith Ascii String.
From stdpp Require Import base tactics option list strings gmap.

Open Scope Z_scope.

(** ** C objects: strings and arrays of marks *)

Module CMem.

(** The terminating character of a C string. *)
Definition NUL : ascii := Ascii.zero.

(** [str[i]] for a string whose stored characters are [str]: the characters
    themselves, then the terminator; anything further is outside the
    object. *)
Definition char_at (str : list ascii) (i : nat) : option ascii :=
  match str !! i with
  | Some c => Some c
  | None => if decide (i = length str) then Some NUL else None
  end.

(** A [bool] object is either initialised or indeterminate ([None]), as a
    local array is before it is written. *)
Abbreviation cell := (option bool).

(** [a[i]] read as a value: inside the array and initialised. *)
Definition load (a : list cell) (i : nat) : option bool :=
  match a !! i with
  | Some (Some b) => Some b
  | _ => None
  end.

(** [a[i] = v]: inside the array. *)
Definition store (a : list cell) (i : nat) (v : bool) : option (list cell) :=
  if decide (i < length a)%nat then Some (<[i := Some v]> a) else None.

(** [bool a[n]] without initialiser; the size of a variable length array
    must be positive. *)
Definition alloca (n : Z) : option (list cell) :=
  if decide (0 < n) then Some (replicate (Z.to_nat n) None) else None.

(** [INT_MAX] of a 32-bit [int]. *)
Definition INT_MAX : Z := 2147483647.

End CMem.

(** ** pattern.c *)

Module PatternC.
Import CMem.

(** The two kinds of pattern object: [SymbolPattern] holds [sym], a
    [BinaryPattern] built by [makeConcatenationPattern] holds [p1] and [p2].
    The [match] field of each is fixed by its constructor function, so the
    constructor stands for the function pointer. *)
Inductive Pattern : Type :=
| SymbolPattern (sym : ascii)
| ConcatenationPattern (p1 p2 : Pattern).

(** The two constructor functions as the objects they build once [malloc]
    has given them memory; the allocation itself, which the source uses
    without a check, is in [HeapC] below. *)
Definition makeSymbolPattern (sym : ascii) : Pattern := SymbolPattern sym.

Definition makeConcatenationPattern (p1 p2 : Pattern) : Pattern :=
  ConcatenationPattern p1 p2.

(** [before[ i ] && str[ i ] == sym]; [&&] reads [str[ i ]] only when
    [before[ i ]] is true. *)
Definition symbolStep (sym : ascii) (str : list ascii) (before : list cell)
    (i : nat) : option bool :=
  b ← load before i;
  if (b : bool) then c ← char_at str i; Some (Ascii.eqb c sym) else Some false.

(** The body of the [for] loop of [matchSymbolPattern], run [n] more times
    from index [i]. *)
Fixpoint symbolLoop (sym : ascii) (str : list ascii) (before : list cell)
    (n i : nat) (after : list cell) : option (list cell) :=
  match n with
  | O => Some after
  | S n' =>
      v ← symbolStep sym str before i;
      after' ← store after (S i) v;
      symbolLoop sym str before n' (S i) after'
  end.

(** [matchSymbolPattern]; the loop runs while [i < len], so [Z.to_nat len]
    times. *)
Definition matchSymbolPattern (sym : ascii) (len : Z) (str : list ascii)
    (before after : list cell) : option (list cell) :=
  after0 ← store after 0 false;
  symbolLoop sym str before (Z.to_nat len) 0 after0.

(** [pat->match( pat, len, str, before, after )]: the result is the
    contents of [after] on return, [None] when the call reads or writes
    outside an object or reads an indeterminate mark.  The
    [ConcatenationPattern] case is [matchConcatenationPattern]. *)
Fixpoint pmatch (pat : Pattern) (len : Z) (str : list ascii)
    (before after : list cell) : option (list cell) :=
  match pat with
  | SymbolPattern sym => matchSymbolPattern sym len str before after
  | ConcatenationPattern p1 p2 =>
      if decide (len < INT_MAX) then
        midMarks ← alloca (len + 1);
        midMarks' ← pmatch p1 len str before midMarks;
        pmatch p2 len str midMarks' after
      else None
  end.

Definition matchConcatenationPattern (p1 p2 : Pattern) (len : Z)
    (str : list ascii) (before after : list cell) : option (list cell) :=
  pmatch (ConcatenationPattern p1 p2) len str before after.

(** [marks[ i ] ? '*' : ' '] *)
Definition markChar (marks : list cell) (i : nat) : option ascii :=
  b ← load marks i; Some (if (b : bool) then "*"%char else " "%char).

(** The [while] loop of [reportMarks] from index [i], over the characters
    [rest] that are left; the characters printed.  The index is an [int]:
    [i++] is undefined at [INT_MAX]. *)
Fixpoint reportLoop (rest : list ascii) (marks : list cell) (i : nat)
    : option (list ascii) :=
  match rest with
  | [] => m ← markChar marks i; Some [m; "010"%char]
  | c :: rest' =>
      if Ascii.eqb c NUL then m ← markChar marks i; Some [m; "010"%char]
      else
        m ← markChar marks i;
        if decide (Z.of_nat i < INT_MAX) then
          out ← reportLoop rest' marks (S i);
          Some (m :: c :: out)
        else None
  end.

Definition reportMarks (str : list ascii) (marks : list cell)
    : option (list ascii) :=
  reportLoop str marks 0.

End PatternC.

(** ** mygrep.c *)

Module MygrepC.
Import CMem PatternC.

(** A string literal as the list of its characters. *)
Abbreviation lit s := (list_ascii_of_string s).

(** How a call ends: it returns a value, or [exit( EXIT_FAILURE )] is
    called after [err] has been written to standard error, or its behaviour
    is undefined.  [OutOfFuel] belongs to the embedding only: the loop
    counter of [concatLoop] ran out (see [parseConcatenation_fuel]). *)
Inductive outcome (A : Type) : Type :=
| Return (a : A)
| Exit (err : list ascii)
| Undefined
| OutOfFuel.
Arguments Return {A} a.
Arguments Exit {A} err.
Arguments Undefined {A}.
Arguments OutOfFuel {A}.

(** Sequencing: the first call that does not return ends the whole. *)
#[export] Instance outcome_bind : MBind outcome := fun A B k m =>
  match m with
  | Return a => k a
  | Exit err => Exit err
  | Undefined => Undefined
  | OutOfFuel => OutOfFuel
  end.

(** An access that must stay inside its object. *)
Definition defined {A : Type} (o : option A) : outcome A :=
  match o with Some a => Return a | None => Undefined end.

(** [strlen]: the characters before the first terminator. *)
Fixpoint strlen (s : list ascii) : nat :=
  match s with
  | [] => O
  | c :: s' => if Ascii.eqb c NUL then O else S (strlen s')
  end.

(** The string a [char *] denotes, as [%s] prints it. *)
Definition cstring (s : list ascii) : list ascii := take (strlen s) s.

(** [strchr( s, c )]: the offset of the first [c] in [s], the terminator
    counting as part of the string; [None] is the null pointer. *)
Fixpoint strchr (s : list ascii) (c : ascii) : option nat :=
  match s with
  | [] => if Ascii.eqb c NUL then Some O else None
  | x :: s' =>
      if Ascii.eqb x c then Some O
      else if Ascii.eqb x NUL then None
      else S <$> strchr s' c
  end.

Definition metacharacters : list ascii := lit ".^$*?+|()[{".

Definition ordinary (c : ascii) : bool :=
  match strchr metacharacters c with
  | Some _ => false
  | None => true
  end.

Definition invalidPatternMessage : list ascii :=
  lit "Invalid pattern" ++ ["010"%char].

Definition invalidPattern {A : Type} : outcome A := Exit invalidPatternMessage.

(** [str[ pos ]] for an [int] index. *)
Definition char_at_int (str : list ascii) (pos : Z) : outcome ascii :=
  if decide (0 <= pos) then defined (char_at str (Z.to_nat pos)) else Undefined.

(** [pos + 1] in [int]. *)
Definition int_succ (pos : Z) : outcome Z :=
  if decide (pos < INT_MAX) then Return (pos + 1) else Undefined.

(** The parsing functions take the value of [*pos] and return the pattern
    together with the value [*pos] has on return. *)
Definition parseAtomicPattern (str : list ascii) (pos : Z) : outcome (Pattern * Z) :=
  c ← char_at_int str pos;
  if ordinary c then
    pos' ← int_succ pos;
    Return (makeSymbolPattern c, pos')
  else invalidPattern.

Definition parseRepetition (str : list ascii) (pos : Z) : outcome (Pattern * Z) :=
  '(p, pos') ← parseAtomicPattern str pos;
  Return (p, pos').

(** [str[ *pos ] && str[ *pos ] != '|' && str[ *pos ] != ')'] *)
Definition morePatterns (c : ascii) : bool :=
  negb (Ascii.eqb c NUL) && negb (Ascii.eqb c "|"%char) && negb (Ascii.eqb c ")"%char).

(** The [while] loop of [parseConcatenation]. *)
Fixpoint concatLoop (fuel : nat) (str : list ascii) (p1 : Pattern) (pos : Z)
    : outcome (Pattern * Z) :=
  c ← char_at_int str pos;
  if morePatterns c then
    match fuel with
    | O => OutOfFuel
    | S fuel' =>
        '(p2, pos') ← parseRepetition str pos;
        concatLoop fuel' str (makeConcatenationPattern p1 p2) pos'
    end
  else Return (p1, pos).

(** Every turn of the loop moves [*pos] one character forward and the loop
    stops at the terminator at the latest, so [length str] turns are
    enough. *)
Definition parseConcatenation (str : list ascii) (pos : Z) : outcome (Pattern * Z) :=
  '(p1, pos') ← parseRepetition str pos;
  concatLoop (length str) str p1 pos'.

Definition parseAlternation (str : list ascii) (pos : Z) : outcome (Pattern * Z) :=
  '(p1, pos') ← parseConcatenation str pos;
  Return (p1, pos').

(** *** The driver

    A process prints on standard output while it runs: a step takes the
    output so far and gives the output after it together with how it
    ended. *)
Definition proc (A : Type) : Type := list ascii -> list ascii * outcome A.

#[export] Instance proc_bind : MBind proc := fun A B k m out =>
  match m out with
  | (out', Return a) => k a out'
  | (out', Exit err) => (out', Exit err)
  | (out', Undefined) => (out', Undefined)
  | (out', OutOfFuel) => (out', OutOfFuel)
  end.

Definition call {A : Type} (o : outcome A) : proc A := fun out => (out, o).

#[export] Instance proc_ret : MRet proc := fun A a => call (Return a).

Definition printf (s : list ascii) : proc unit := fun out => (out ++ s, Return tt).

(** [fprintf( stderr, err ); exit( EXIT_FAILURE );] *)
Definition die {A : Type} (err : list ascii) : proc A := call (Exit err).

Definition EXIT_SUCCESS : Z := 0.

Definition nl : ascii := "010"%char.

Definition usageMessage : list ascii :=
  lit "usage: mygrep <pattern> [input-file.txt]" ++ [nl].

Definition cantOpenMessage (file : list ascii) : list ascii :=
  lit "Can't open input file: " ++ cstring file ++ [nl].

(** [argv[ k ]]: one of the [argc] argument strings. *)
Definition argv_at (argv : list (list ascii)) (k : Z) : outcome (list ascii) :=
  if decide (0 <= k) then defined (argv !! Z.to_nat k) else Undefined.

(** [count - 1] in [int]. *)
Definition int_pred (count : Z) : outcome Z :=
  if decide (- INT_MAX - 1 < count) then Return (count - 1) else Undefined.

Definition opening (c : ascii) : bool :=
  Ascii.eqb c "["%char || Ascii.eqb c "("%char || Ascii.eqb c "{"%char.

Definition closing (c : ascii) : bool :=
  Ascii.eqb c "]"%char || Ascii.eqb c ")"%char || Ascii.eqb c "}"%char.

(** The bracket counting loop of [main] from index [i], over the characters
    [rest] before the terminator that are left; the final [count]. *)
Fixpoint bracketLoop (rest : list ascii) (i count : Z) : outcome Z :=
  match rest with
  | [] => Return count
  | c :: rest' =>
      count' ← (if opening c then int_succ count
                else if closing c then int_pred count
                else Return count);
      i' ← int_succ i;
      bracketLoop rest' i' count'
  end.

(** One block of the demonstration: [before] is the initialised array,
    [after] an array of as many marks without initialiser. *)
Definition demonstrate (pat : Pattern) (str : list ascii) (before : list cell)
    : proc unit :=
  let after := replicate (length before) (None : cell) in
  printf (lit "Before matching: ");;
  line ← call (defined (reportMarks str before));
  printf line;;
  after' ← call (defined (pmatch pat (Z.of_nat (strlen str)) str before after));
  printf (lit "After matching:  ");;
  line' ← call (defined (reportMarks str after'));
  printf line'.

Definition allTrue (n : nat) : list cell := replicate n (Some true).

Section Main.
(** [DICT_POS] comes from pattern.h. *)
Variable DICT_POS : Z.
(** Whether [fopen( name, "r" )] gives a stream. *)
Variable can_open : list ascii -> bool.

(** The two checks on the command line at the start of [main]. *)
Definition checkArguments (argv : list (list ascii)) : proc unit :=
  let argc := Z.of_nat (length argv) in
  if decide (argc > DICT_POS \/ argc < DICT_POS - 1) then die usageMessage
  else if decide (argc = DICT_POS) then
    file ← call (argv_at argv (DICT_POS - 1));
    if can_open (cstring file) then mret () else die (cantOpenMessage file)
  else mret ().

(** The two checks on the pattern [argv[ 1 ]] that follow. *)
Definition checkPattern (argv : list (list ascii)) : proc unit :=
  pattern ← call (argv_at argv 1);
  c0 ← call (char_at_int pattern 0);
  if Ascii.eqb c0 "*"%char || Ascii.eqb c0 "+"%char || Ascii.eqb c0 "|"%char
  then die invalidPatternMessage
  else
    count ← call (bracketLoop (cstring pattern) 0 0);
    if decide (count <> 0) then die invalidPatternMessage else mret ().

(** The demonstration: the patterns parsed are the literals ["b"] and
    ["bc"], not [argv[ 1 ]]. *)
Definition demonstration : proc Z :=
  '(pat, _) ← call (parseAlternation (lit "b") 0);
  printf (lit "For pattern 'b'" ++ [nl]);;
  demonstrate pat (lit "abc") (allTrue 4);;
  demonstrate pat (lit "abbbcbbdb") (allTrue 10);;
  '(pat', _) ← call (parseAlternation (lit "bc") 0);
  printf (lit "For pattern 'bc'" ++ [nl]);;
  demonstrate pat' (lit "abcbcdbcb") (allTrue 10);;
  mret EXIT_SUCCESS.

(** [main]: what it has printed on standard output, and how it ended. *)
Definition main (argv : list (list ascii)) : list ascii * outcome Z :=
  (checkArguments argv;; checkPattern argv;; demonstration) [].
End Main.

End MygrepC.

(** ** What the specification says, in its own words *)

Module Spec.
Import CMem PatternC MygrepC.

(** The substring of [str] spanning positions [j..i]. *)
Definition span (j i : nat) (str : list ascii) : list ascii :=
  take (i - j) (drop j str).

(** A Symbol matches exactly one literal character; a Concatenation
    matches its left sub-pattern immediately followed by its right one. *)
Inductive matches : Pattern -> list ascii -> Prop :=
| matches_symbol c : matches (SymbolPattern c) [c]
| matches_concatenation p1 p2 s1 s2 :
    matches p1 s1 -> matches p2 s2 ->
    matches (ConcatenationPattern p1 p2) (s1 ++ s2).

(** The same as a test: every way of cutting [s] in two is tried. *)
Fixpoint matchesb (p : Pattern) (s : list ascii) : bool :=
  match p with
  | SymbolPattern c =>
      match s with [x] => Ascii.eqb x c | _ => false end
  | ConcatenationPattern p1 p2 =>
      existsb (fun k => matchesb p1 (take k s) && matchesb p2 (drop k s))
              (seq 0 (S (length s)))
  end.

(** The per-variant matching rule as a function on mark vectors. *)
Fixpoint marksAfter (p : Pattern) (str : list ascii) (before : list bool)
    : list bool :=
  match p with
  | SymbolPattern c =>
      false :: zip_with (fun b x => b && Ascii.eqb x c) before str
  | ConcatenationPattern p1 p2 =>
      marksAfter p2 str (marksAfter p1 str before)
  end.

(** The mark the Symbol rule puts at a positive index [k]. *)
Definition symbolMark (sym : ascii) (str : list ascii) (bs : list bool)
    (k : nat) : option bool :=
  b ← bs !! pred k; x ← str !! pred k; Some (b && Ascii.eqb x sym).

Fixpoint countTrue (marks : list bool) : nat :=
  match marks with
  | [] => O
  | b :: marks' => ((if b then 1 else 0) + countTrue marks')%nat
  end.

(** The positions [i] of the line where [before[i]] is true and the
    character is [c]. *)
Definition hits (c : ascii) (str : list ascii) (before : list bool) : list nat :=
  filter (fun i => before !! i = Some true /\ str !! i = Some c)
         (seq 0 (length str)).

(** How many characters of [s] are among [set]. *)
Definition countOf (set s : list ascii) : Z :=
  Z.of_nat (length (filter (fun c => c ∈ set) s)).

(** Net count of ['['], ['('], ['{'] against [']'], [')'], ['}']. *)
Definition bracketNet (s : list ascii) : Z :=
  countOf (lit "[({") s - countOf (lit "])}") s.

(** Left-nested concatenation of the symbols [cs] onto [p]. *)
Definition concatSymbols (p : Pattern) (cs : list ascii) : Pattern :=
  foldl (fun q c => ConcatenationPattern q (SymbolPattern c)) p cs.

(** The characters at which the concatenation level stops. *)
Definition stopsConcatenation (rest : list ascii) : Prop :=
  match rest with
  | [] => True
  | c :: _ => c = NUL \/ c = "|"%char \/ c = ")"%char
  end.

End Spec.

(** ** pattern.c and mygrep.c on the heap

    The pattern objects as [malloc] and [free] see them: every object lives
    at an address and holds its two function pointers and its own fields. *)

Module HeapC.
Import CMem PatternC MygrepC.

(** The functions a [match] field can point to. *)
Inductive matchFn : Type := matchSymbolPatternFn | matchConcatenationPatternFn.

(** The functions a [destroy] field can point to. *)
Inductive destroyFn : Type := destroySimplePatternFn | destroyBinaryPatternFn.

(** An allocated struct: a [SymbolPattern] with its [sym], or a
    [BinaryPattern] with the addresses [p1] and [p2] of its sub-patterns. *)
Inductive object : Type :=
| SymbolObject (match_field : matchFn) (destroy_field : destroyFn) (sym : ascii)
| BinaryObject (match_field : matchFn) (destroy_field : destroyFn) (p1 p2 : nat).

(** [pat->match] and [pat->destroy]: both structs begin with these fields. *)
Definition match_of (o : object) : matchFn :=
  match o with SymbolObject m _ _ => m | BinaryObject m _ _ _ => m end.

Definition destroy_of (o : object) : destroyFn :=
  match o with SymbolObject _ d _ => d | BinaryObject _ d _ _ => d end.

(** The allocated objects by address. *)
Abbreviation heap := (gmap nat object).

(** [free( p )] for the address of an allocated object. *)
Definition free (h : heap) (p : nat) : outcome heap :=
  match h !! p with
  | Some _ => Return (delete p h)
  | None => Undefined
  end.

(** [this->sym] after the cast of [pat] to a pointer to [SymbolPattern]: the
    object at [pat] must be there and be a [SymbolPattern]. *)
Definition sym_of (h : heap) (pat : nat) : outcome ascii :=
  match h !! pat with
  | Some (SymbolObject _ _ sym) => Return sym
  | _ => Undefined
  end.

(** [this->p1] and [this->p2] after the cast to a pointer to
    [BinaryPattern]: the object must be there and be a [BinaryPattern]. *)
Definition p1_of (h : heap) (pat : nat) : outcome nat :=
  match h !! pat with
  | Some (BinaryObject _ _ p1 _) => Return p1
  | _ => Undefined
  end.

Definition p2_of (h : heap) (pat : nat) : outcome nat :=
  match h !! pat with
  | Some (BinaryObject _ _ _ p2) => Return p2
  | _ => Undefined
  end.

(** [pat->destroy( pat )]: the call goes through the [destroy] field of the
    object; the first case is [destroySimplePattern], the second
    [destroyBinaryPattern], which reads [this->p2] after the first
    sub-pattern has been destroyed.  [fuel] bounds the depth of the calls. *)
Fixpoint destroy (fuel : nat) (h : heap) (pat : nat) : outcome heap :=
  match fuel with
  | O => OutOfFuel
  | S fuel' =>
      o ← defined (h !! pat);
      match destroy_of o with
      | destroySimplePatternFn => free h pat
      | destroyBinaryPatternFn =>
          p1 ← p1_of h pat;
          h1 ← destroy fuel' h p1;
          p2 ← p2_of h1 pat;
          h2 ← destroy fuel' h1 p2;
          free h2 pat
      end
  end.

(** [pat->match( pat, len, str, before, after )] through the [match] field:
    the first case is [matchSymbolPattern], the second
    [matchConcatenationPattern].  The heap is only read. *)
Fixpoint hmatch (fuel : nat) (h : heap) (pat : nat) (len : Z) (str : list ascii)
    (before after : list cell) : outcome (list cell) :=
  match fuel with
  | O => OutOfFuel
  | S fuel' =>
      o ← defined (h !! pat);
      match match_of o with
      | matchSymbolPatternFn =>
          sym ← sym_of h pat;
          defined (matchSymbolPattern sym len str before after)
      | matchConcatenationPatternFn =>
          if decide (len < INT_MAX) then
            midMarks ← defined (alloca (len + 1));
            p1 ← p1_of h pat;
            midMarks' ← hmatch fuel' h p1 len str before midMarks;
            p2 ← p2_of h pat;
            hmatch fuel' h p2 len str midMarks' after
          else Undefined
      end
  end.

Section Allocation.
(** [malloc]: the address of a new object, or [None] for the null pointer. *)
Variable malloc : heap -> option nat.

(** The result of [malloc] is used without a check: on a null pointer the
    first assignment is undefined. *)
Definition makeSymbolPattern (sym : ascii) (h : heap) : outcome (nat * heap) :=
  this ← defined (malloc h);
  Return (this,
          <[this := SymbolObject matchSymbolPatternFn destroySimplePatternFn sym]> h).

Definition makeConcatenationPattern (p1 p2 : nat) (h : heap)
    : outcome (nat * heap) :=
  this ← defined (malloc h);
  Return (this,
          <[this := BinaryObject matchConcatenationPatternFn
                                 destroyBinaryPatternFn p1 p2]> h).

(** The parsing functions with the heap they allocate in. *)
Definition parseAtomicPattern (str : list ascii) (pos : Z) (h : heap)
    : outcome (nat * Z * heap) :=
  c ← char_at_int str pos;
  if ordinary c then
    pos' ← int_succ pos;
    '(p, h') ← makeSymbolPattern c h;
    Return (p, pos', h')
  else invalidPattern.

Definition parseRepetition (str : list ascii) (pos : Z) (h : heap)
    : outcome (nat * Z * heap) :=
  '(p, pos', h') ← parseAtomicPattern str pos h;
  Return (p, pos', h').

Fixpoint concatLoop (fuel : nat) (str : list ascii) (p1 : nat) (pos : Z)
    (h : heap) : outcome (nat * Z * heap) :=
  c ← char_at_int str pos;
  if morePatterns c then
    match fuel with
    | O => OutOfFuel
    | S fuel' =>
        '(p2, pos', h') ← parseRepetition str pos h;
        '(p1', h'') ← makeConcatenationPattern p1 p2 h';
        concatLoop fuel' str p1' pos' h''
    end
  else Return (p1, pos, h).

Definition parseConcatenation (str : list ascii) (pos : Z) (h : heap)
    : outcome (nat * Z * heap) :=
  '(p1, pos', h') ← parseRepetition str pos h;
  concatLoop (length str) str p1 pos' h'.

Definition parseAlternation (str : list ascii) (pos : Z) (h : heap)
    : outcome (nat * Z * heap) :=
  '(p1, pos', h') ← parseConcatenation str pos h;
  Return (p1, pos', h').

(** One block of the demonstration, with the call through [pat->match].
    The calls nest no deeper than there are objects, so [size h] is fuel
    enough. *)
Definition demonstrate (h : heap) (pat : nat) (str : list ascii)
    (before : list cell) : proc unit :=
  let after := replicate (length before) (None : cell) in
  printf (lit "Before matching: ");;
  line ← call (defined (reportMarks str before));
  printf line;;
  after' ← call (hmatch (size h) h pat (Z.of_nat (strlen str)) str before after);
  printf (lit "After matching:  ");;
  line' ← call (defined (reportMarks str after'));
  printf line'.

(** The demonstration of [main] from the heap [h]: each pattern is parsed,
    used and destroyed; the value is [main]'s and the heap at the end. *)
Definition demonstration (h : heap) : proc (Z * heap) :=
  '(pat, _, h1) ← call (parseAlternation (lit "b") 0 h);
  printf (lit "For pattern 'b'" ++ [nl]);;
  demonstrate h1 pat (lit "abc") (allTrue 4);;
  demonstrate h1 pat (lit "abbbcbbdb") (allTrue 10);;
  h2 ← call (destroy (size h1) h1 pat);
  '(pat', _, h3) ← call (parseAlternation (lit "bc") 0 h2);
  printf (lit "For pattern 'bc'" ++ [nl]);;
  demonstrate h3 pat' (lit "abcbcdbcb") (allTrue 10);;
  h4 ← call (destroy (size h3) h3 pat');
  mret (EXIT_SUCCESS, h4).

(** [main] with its allocations: the checks of the command line, then the
    demonstration. *)
Definition main (DICT_POS : Z) (can_open : list ascii -> bool)
    (argv : list (list ascii)) (h : heap) : list ascii * outcome (Z * heap) :=
  (checkArguments DICT_POS can_open argv;; checkPattern argv;;
   demonstration h) [].

End Allocation.

End HeapC.

(** ** Notions used to state further properties *)

Module Notions.
Import CMem PatternC MygrepC.

(** The characters of the Symbol nodes of a tree, from left to right. *)
Fixpoint word (p : Pattern) : list ascii :=
  match p with
  | SymbolPattern c => [c]
  | ConcatenationPattern p1 p2 => word p1 ++ word p2
  end.


(** The number of nested calls a tree needs. *)
Fixpoint height (t : Pattern) : nat :=
  match t with
  | SymbolPattern _ => 1
  | ConcatenationPattern t1 t2 => S (Nat.max (height t1) (height t2))
  end.

(** The objects [ht] are exactly the nodes of the tree [t] rooted at the
    address [pat], as the two constructor functions fill them in; no node is
    shared. *)
Fixpoint represents (t : Pattern) (pat : nat) (ht : HeapC.heap) : Prop :=
  match t with
  | SymbolPattern c =>
      ht = {[ pat := HeapC.SymbolObject HeapC.matchSymbolPatternFn
                                        HeapC.destroySimplePatternFn c ]}
  | ConcatenationPattern t1 t2 =>
      exists p1 p2 h1 h2,
        represents t1 p1 h1 /\ represents t2 p2 h2 /\
        h1 ##ₘ h2 /\ h1 !! pat = None /\ h2 !! pat = None /\
        ht = <[ pat := HeapC.BinaryObject HeapC.matchConcatenationPatternFn
                                          HeapC.destroyBinaryPatternFn p1 p2 ]>
               (h1 ∪ h2)
  end.

(** How the outcome of a parsing function on the heap [h] follows the
    outcome [o] of the function on trees: a tree returned is built in memory
    that was free. *)
Definition follows (h : HeapC.heap) (o : outcome (Pattern * Z))
    (oh : outcome (nat * Z * HeapC.heap)) : Prop :=
  match o with
  | Return (t, pos') =>
      exists pat ht, oh = Return (pat, pos', ht ∪ h) /\
                     represents t pat ht /\ ht ##ₘ h
  | Exit err => oh = Exit err
  | Undefined => oh = Undefined
  | OutOfFuel => oh = OutOfFuel
  end.

(** An allocator that never fails: the first address that is not in use. *)
Definition firstFree (h : HeapC.heap) : option nat := Some (fresh (dom h)).

End Notions.

Import CMem PatternC MygrepC Spec.
Import Notions.

(** ** The pattern engine *)

Section Engine.
Implicit Types (str : list ascii) (bs : list bool) (a : list cell).

Lemma load_initialised bs i : load (Some <$> bs) i = bs !! i.
Proof.
  unfold load. rewrite list_lookup_fmap. by destruct (bs !! i).
Qed.

Lemma store_inside a i v :
  (i < length a)%nat -> store a i v = Some (<[i := Some v]> a).
Proof. intros Hi. unfold store. by rewrite decide_True. Qed.

Lemma char_at_inside str i c : str !! i = Some c -> char_at str i = Some c.
Proof. intros H. unfold char_at. by rewrite H. Qed.

Lemma symbolStep_ok sym str bs i b x :
  bs !! i = Some b -> str !! i = Some x ->
  symbolStep sym str (Some <$> bs) i = Some (b && Ascii.eqb x sym).
Proof.
  intros Hb Hx. unfold symbolStep. rewrite load_initialised, Hb. simpl.
  destruct b; [|done]. by rewrite (char_at_inside _ _ _ Hx).
Qed.

(** The loop fills the cells [i+1 .. i+n] and leaves the others alone. *)
Lemma symbolLoop_ok sym str bs n : forall i a,
  (i + n <= length str)%nat -> (i + n <= length bs)%nat ->
  (i + n < length a)%nat ->
  exists r, symbolLoop sym str (Some <$> bs) n i a = Some r /\
    length r = length a /\
    forall k, r !! k =
      if decide (i < k <= i + n)%nat
      then Some <$> symbolMark sym str bs k else a !! k.
Proof.
  induction n as [|n IH]; intros i a Hs Hb Ha; simpl.
  - exists a. split_and!; [done..|]. intros k. rewrite decide_False; [done|lia].
  - destruct (lookup_lt_is_Some_2 bs i) as [b Hbi]; [lia|].
    destruct (lookup_lt_is_Some_2 str i) as [x Hxi]; [lia|].
    rewrite (symbolStep_ok _ _ _ _ _ _ Hbi Hxi). simpl.
    rewrite store_inside by lia. simpl.
    destruct (IH (S i) (<[S i := Some (b && Ascii.eqb x sym)]> a))
      as (r & Hr & Hlen & Hlook); [lia | lia | rewrite length_insert; lia |].
    exists r. rewrite length_insert in Hlen. split_and!; [done..|].
    intros k. rewrite Hlook.
    destruct (decide (k = S i)) as [->|Hk].
    + rewrite list_lookup_insert_eq by lia.
      repeat case_decide; try lia.
      unfold symbolMark. simpl. by rewrite Hbi, Hxi.
    + rewrite list_lookup_insert_ne by done.
      repeat case_decide; (done || lia).
Qed.

Lemma length_marksAfter p str : forall bs,
  length bs = S (length str) -> length (marksAfter p str bs) = S (length str).
Proof.
  induction p as [c|p1 IH1 p2 IH2]; intros bs Hbs; simpl.
  - rewrite length_zip_with. lia.
  - auto.
Qed.

(** [matchSymbolPattern] computes the Symbol rule, whatever [after] held. *)
Lemma matchSymbolPattern_marksAfter sym str bs a :
  length bs = S (length str) -> length a = S (length str) ->
  matchSymbolPattern sym (Z.of_nat (length str)) str (Some <$> bs) a
  = Some (Some <$> marksAfter (SymbolPattern sym) str bs).
Proof.
  intros Hbs Ha. unfold matchSymbolPattern.
  rewrite store_inside by lia. cbn [mbind option_bind]. rewrite Nat2Z.id.
  destruct (symbolLoop_ok sym str bs (length str) 0 (<[0%nat := Some false]> a))
    as (r & -> & Hlen & Hlook); [lia | lia | rewrite length_insert; lia |].
  rewrite length_insert in Hlen. f_equal. apply list_eq. intros k.
  rewrite Hlook, list_lookup_fmap. destruct k as [|k].
  - rewrite decide_False by lia. by rewrite list_lookup_insert_eq by lia.
  - rewrite list_lookup_insert_ne by done. cbn [marksAfter].
    rewrite lookup_cons, lookup_zip_with. unfold symbolMark.
    case_decide as Hk; [done|].
    rewrite (proj2 (lookup_ge_None a (S k))) by lia.
    rewrite (proj2 (lookup_ge_None str k)) by lia.
    by destruct (bs !! k).
Qed.

Lemma alloca_marks (n : nat) :
  alloca (Z.of_nat n + 1) = Some (replicate (S n) None).
Proof.
  unfold alloca. rewrite decide_True by lia. do 2 f_equal. lia.
Qed.

(** The code refines the matching rule: on a line of [n] characters, marks
    of length [n+1] and an [after] array of [n+1] marks, the call is
    defined and leaves the marks of the rule in [after]. *)
Lemma pmatch_marksAfter p str : forall bs a,
  Z.of_nat (length str) < INT_MAX ->
  length bs = S (length str) -> length a = S (length str) ->
  pmatch p (Z.of_nat (length str)) str (Some <$> bs) a
  = Some (Some <$> marksAfter p str bs).
Proof.
  induction p as [c|p1 IH1 p2 IH2]; intros bs a Hmax Hbs Ha.
  - by apply matchSymbolPattern_marksAfter.
  - cbn [pmatch marksAfter]. rewrite decide_True by done.
    rewrite alloca_marks. cbn [mbind option_bind].
    rewrite IH1; [|done|done|by rewrite length_replicate].
    cbn [mbind option_bind].
    apply IH2; [done| |done]. by apply length_marksAfter.
Qed.

End Engine.

(** ** What a pattern matches *)

Section Semantics.
Implicit Types (str s : list ascii) (bs : list bool).

Lemma matches_symbol_iff c s : matches (SymbolPattern c) s <-> s = [c].
Proof.
  split.
  - by inversion 1.
  - intros ->. constructor.
Qed.

Lemma matches_concatenation_iff p1 p2 s :
  matches (ConcatenationPattern p1 p2) s <->
  exists s1 s2, s = s1 ++ s2 /\ matches p1 s1 /\ matches p2 s2.
Proof.
  split.
  - inversion 1; subst. eauto.
  - intros (s1 & s2 & -> & H1 & H2). by constructor.
Qed.

(** [matchesb] decides [matches]. *)
Lemma matchesb_matches p : forall s, matchesb p s = true <-> matches p s.
Proof.
  induction p as [c|p1 IH1 p2 IH2]; intros s.
  - rewrite matches_symbol_iff. simpl.
    destruct s as [|x [|y s]]; [done| |done].
    rewrite Ascii.eqb_eq. naive_solver.
  - rewrite matches_concatenation_iff. cbn [matchesb].
    rewrite existsb_exists. split.
    + intros (k & _ & Hk). apply andb_true_iff in Hk as [H1 H2].
      exists (take k s), (drop k s). rewrite take_drop.
      split_and!; [done|by apply IH1|by apply IH2].
    + intros (s1 & s2 & -> & H1 & H2). exists (length s1). split.
      * apply in_seq. rewrite length_app. lia.
      * rewrite take_app_length, drop_app_length.
        apply andb_true_iff. split; [by apply IH1|by apply IH2].
Qed.

Lemma length_span j i str :
  (j <= i <= length str)%nat -> length (span j i str) = (i - j)%nat.
Proof. intros H. unfold span. rewrite length_take, length_drop. lia. Qed.

Lemma span_app j m i str :
  (j <= m <= i)%nat -> span j i str = span j m str ++ span m i str.
Proof.
  intros H. unfold span.
  replace (i - j)%nat with ((m - j) + (i - m))%nat by lia.
  rewrite <-take_take_drop, drop_drop. do 3 f_equal. lia.
Qed.

Lemma span_symbol j i str c :
  (i <= length str)%nat ->
  span j i str = [c] <-> i = S j /\ str !! j = Some c.
Proof.
  intros Hi. unfold span. split.
  - intros H. assert (Hlen := f_equal length H).
    rewrite length_take, length_drop in Hlen. simpl in Hlen.
    assert (i = S j) as -> by lia. split; [done|].
    assert (Hc := f_equal (fun l => l !! 0%nat) H). simpl in Hc.
    rewrite lookup_take_lt, lookup_drop, Nat.add_0_r in Hc by lia. done.
  - intros [-> Hc]. rewrite (drop_S _ _ _ Hc).
    by replace (S j - j)%nat with 1%nat by lia.
Qed.

(** The matching rule is reachability: a mark at [i] after the pattern
    means a mark at some [j] before it and a match in between. *)
Lemma marksAfter_matches str p : forall bs i,
  length bs = S (length str) -> (i <= length str)%nat ->
  marksAfter p str bs !! i = Some true <->
  exists j, (j <= i)%nat /\ bs !! j = Some true /\ matches p (span j i str).
Proof.
  induction p as [c|p1 IH1 p2 IH2]; intros bs i Hbs Hi.
  - cbn [marksAfter]. setoid_rewrite matches_symbol_iff.
    setoid_rewrite (span_symbol _ _ _ _ Hi). split.
    + destruct i as [|k]; [done|]. simpl. rewrite lookup_zip_with.
      destruct (bs !! k) as [b|] eqn:Hb; [|done].
      destruct (str !! k) as [x|] eqn:Hx; [|done]. simpl.
      intros [= Hand]. apply andb_true_iff in Hand as [-> Hxc].
      apply Ascii.eqb_eq in Hxc as ->. exists k. split_and!; (done || lia).
    + intros (j & _ & Hb & -> & Hc). simpl.
      rewrite lookup_zip_with, Hb, Hc. simpl. by rewrite Ascii.eqb_refl.
  - cbn [marksAfter].
    rewrite IH2; [|by apply length_marksAfter|done].
    setoid_rewrite matches_concatenation_iff. split.
    + intros (m & Hm & Hmid & H2).
      apply IH1 in Hmid as (j & Hj & Hb & H1); [|done|lia].
      exists j. split_and!; [lia|done|].
      exists (span j m str), (span m i str). split_and!; [|done..].
      apply span_app. lia.
    + intros (j & Hj & Hb & s1 & s2 & Hs & H1 & H2).
      assert (Hlen := f_equal length Hs).
      rewrite length_span, length_app in Hlen by lia.
      assert (span j i str = span j (j + length s1) str
                             ++ span (j + length s1) i str) as Hsplit
        by (apply span_app; lia).
      rewrite Hs in Hsplit.
      apply app_inj_1 in Hsplit as [E1 E2]; [|rewrite length_span; lia].
      rewrite E1 in H1. rewrite E2 in H2.
      exists (j + length s1)%nat. split_and!; [lia| |done].
      apply IH1; [done|lia|]. exists j. split_and!; (done || lia).
Qed.

End Semantics.

(** ** Counting marks *)

Section Counting.
Implicit Types (str : list ascii) (bs : list bool).

Lemma length_filter_seq_S (P : nat -> Prop) `{!forall i, Decision (P i)} n :
  forall k, length (filter P (seq (S k) n))
            = length (filter (fun i => P (S i)) (seq k n)).
Proof.
  induction n as [|n IH]; intros k; [done|].
  cbn [seq]. rewrite !filter_cons.
  destruct (decide (P (S k))); simpl; by rewrite IH.
Qed.

Lemma countTrue_hits c str : forall bs,
  (length str <= length bs)%nat ->
  countTrue (zip_with (fun b x => b && Ascii.eqb x c) bs str)
  = length (hits c str bs).
Proof.
  unfold hits. induction str as [|x str IH]; intros bs Hlen.
  - by destruct bs.
  - destruct bs as [|b bs]; [simpl in Hlen; lia|].
    cbn [zip_with countTrue length seq]. simpl in Hlen.
    rewrite (IH bs) by lia. rewrite filter_cons.
    destruct (decide _) as [[Hb Hx]|Hno]; cbn [length];
      rewrite length_filter_seq_S; simpl in *.
    + simplify_eq. by rewrite Ascii.eqb_refl.
    + destruct b; [|done]. destruct (Ascii.eqb_spec x c); [|done].
      subst. by destruct Hno.
Qed.

Lemma marksAfter_all_false p : forall str,
  marksAfter p str (replicate (S (length str)) false)
  = replicate (S (length str)) false.
Proof.
  induction p as [c|p1 IH1 p2 IH2]; intros str; cbn [marksAfter].
  - rewrite replicate_S at 2. f_equal.
    induction str as [|x str IH]; [done|].
    cbn [length]. rewrite (replicate_S (S (length str))).
    cbn [zip_with]. by rewrite IH.
  - by rewrite IH1, IH2.
Qed.

End Counting.

(** ** The matching contract *)

Section MatchContract.
Implicit Types (str : list ascii) (before : list bool).

(** C1. On a line of [n] characters with [before] of length [n+1], matching
    a tree of Symbol and Concatenation nodes returns an [after] vector of
    length [n+1] in which [after[i]] is true exactly when some [j <= i] has
    [before[j]] true and the tree matches the substring spanning [j..i]. *)
Theorem pmatch_reachability (p : Pattern) str before (after0 : list cell) :
  Z.of_nat (length str) < INT_MAX ->
  length before = S (length str) ->
  length after0 = S (length str) ->
  exists after : list bool,
    pmatch p (Z.of_nat (length str)) str (Some <$> before) after0
    = Some (Some <$> after) /\
    length after = S (length str) /\
    forall i, (i <= length str)%nat ->
      after !! i = Some true <->
      exists j, (j <= i)%nat /\ before !! j = Some true /\
                matches p (span j i str).
Proof.
  intros Hmax Hbefore Hafter. exists (marksAfter p str before).
  split_and!.
  - by apply pmatch_marksAfter.
  - by apply length_marksAfter.
  - intros i Hi. by apply marksAfter_matches.
Qed.

(** C2. A Symbol pattern for [c] sets [after[0]] to false and, for each
    [i] below [n], [after[i+1]] to [before[i] && str[i] == c]; so [after]
    has as many true entries as there are positions [i] with [before[i]]
    true and [str[i]] equal to [c]. *)
Theorem matchSymbolPattern_rule (c : ascii) str before (after0 : list cell) :
  length before = S (length str) ->
  length after0 = S (length str) ->
  exists after : list bool,
    pmatch (SymbolPattern c) (Z.of_nat (length str)) str (Some <$> before) after0
    = Some (Some <$> after) /\
    length after = S (length str) /\
    after !! 0%nat = Some false /\
    (forall i b x, before !! i = Some b -> str !! i = Some x ->
       after !! S i = Some (b && Ascii.eqb x c)) /\
    countTrue after = length (hits c str before).
Proof.
  intros Hbefore Hafter. exists (marksAfter (SymbolPattern c) str before).
  split_and!.
  - by apply matchSymbolPattern_marksAfter.
  - by apply length_marksAfter.
  - done.
  - intros i b x Hb Hx. simpl. by rewrite lookup_zip_with, Hb, Hx.
  - cbn [marksAfter countTrue]. apply countTrue_hits. lia.
Qed.

(** C3. Matching a Concatenation of [p1] and [p2] is the composition of the
    matches of [p1] and [p2]: with [mid] what [p1] gives on [before], the
    result is what [p2] gives on [mid], whatever the arrays written to held
    before. *)
Theorem matchConcatenationPattern_composition (p1 p2 : Pattern)
    str before (mid0 after0 : list cell) :
  Z.of_nat (length str) < INT_MAX ->
  length before = S (length str) ->
  length mid0 = S (length str) ->
  length after0 = S (length str) ->
  exists mid after : list bool,
    pmatch p1 (Z.of_nat (length str)) str (Some <$> before) mid0
    = Some (Some <$> mid) /\
    pmatch p2 (Z.of_nat (length str)) str (Some <$> mid) after0
    = Some (Some <$> after) /\
    matchConcatenationPattern p1 p2 (Z.of_nat (length str)) str
      (Some <$> before) after0
    = Some (Some <$> after).
Proof.
  intros Hmax Hbefore Hmid Hafter.
  exists (marksAfter p1 str before),
         (marksAfter p2 str (marksAfter p1 str before)).
  split_and!.
  - by apply pmatch_marksAfter.
  - apply pmatch_marksAfter; [done| |done]. by apply length_marksAfter.
  - unfold matchConcatenationPattern.
    by rewrite (pmatch_marksAfter (ConcatenationPattern p1 p2)).
Qed.

(** Regrouping a concatenation changes nothing, defined or not: both
    groupings run [p1], [p2] and [p3] in this order through fresh arrays. *)
Lemma pmatch_concatenation_assoc (p1 p2 p3 : Pattern) (len : Z) str
    (before after : list cell) :
  pmatch (ConcatenationPattern (ConcatenationPattern p1 p2) p3)
         len str before after
  = pmatch (ConcatenationPattern p1 (ConcatenationPattern p2 p3))
           len str before after.
Proof.
  cbn [pmatch]. case_decide; [|done].
  destruct (alloca (len + 1)) as [fresh|]; [|done]. cbn [mbind option_bind].
  destruct (pmatch p1 len str before fresh) as [mid1|]; [|done].
  cbn [mbind option_bind].
  by destruct (pmatch p2 len str mid1 fresh).
Qed.

(** C4. Concatenation is associative in effect: matching
    [(p1 p2) p3] gives the same [after] vector as matching [p1 (p2 p3)]. *)
Theorem concatenation_associative (p1 p2 p3 : Pattern) str before
    (after0 : list cell) :
  Z.of_nat (length str) < INT_MAX ->
  length before = S (length str) ->
  length after0 = S (length str) ->
  exists after : list bool,
    pmatch (ConcatenationPattern (ConcatenationPattern p1 p2) p3)
           (Z.of_nat (length str)) str (Some <$> before) after0
    = Some (Some <$> after) /\
    pmatch (ConcatenationPattern p1 (ConcatenationPattern p2 p3))
           (Z.of_nat (length str)) str (Some <$> before) after0
    = Some (Some <$> after).
Proof.
  intros Hmax Hbefore Hafter.
  exists (marksAfter (ConcatenationPattern p1 (ConcatenationPattern p2 p3))
                     str before).
  split; [rewrite pmatch_concatenation_assoc|]; by apply pmatch_marksAfter.
Qed.

(** C8. With an all-false [before] vector the [after] vector is all-false,
    for Symbol and for Concatenation patterns. *)
Theorem pmatch_all_false (p : Pattern) str (after0 : list cell) :
  Z.of_nat (length str) < INT_MAX ->
  length after0 = S (length str) ->
  pmatch p (Z.of_nat (length str)) str
         (replicate (S (length str)) (Some false)) after0
  = Some (replicate (S (length str)) (Some false)).
Proof.
  intros Hmax Hafter. rewrite <-(fmap_replicate Some).
  rewrite pmatch_marksAfter; [|done|by rewrite length_replicate|done].
  by rewrite marksAfter_all_false.
Qed.

End MatchContract.

(** ** The parser *)

Section Parser.
Implicit Types (str pre cs rest : list ascii) (p : Pattern) (pos : Z).

(** Lengths of concatenations, everywhere. *)
Ltac lengths :=
  repeat (progress (rewrite ?length_app in *; cbn [length] in * )).

Lemma ordinary_morePatterns c : ordinary c = true -> morePatterns c = true.
Proof.
  intros Hc. unfold morePatterns.
  destruct (Ascii.eqb_spec c NUL) as [->|_]; [done|].
  destruct (Ascii.eqb_spec c "|") as [->|_]; [done|].
  by destruct (Ascii.eqb_spec c ")") as [->|_].
Qed.

Lemma stopsConcatenation_morePatterns c rest :
  stopsConcatenation (c :: rest) -> morePatterns c = false.
Proof. by intros [->| [->| ->]]. Qed.

Lemma char_at_int_nat str (k : nat) :
  char_at_int str (Z.of_nat k) = defined (char_at str k).
Proof.
  unfold char_at_int. rewrite decide_True by lia. by rewrite Nat2Z.id.
Qed.

Lemma char_at_middle pre c rest : char_at (pre ++ c :: rest) (length pre) = Some c.
Proof. unfold char_at. by rewrite list_lookup_middle. Qed.

Lemma char_at_end str : char_at str (length str) = Some NUL.
Proof.
  unfold char_at. rewrite (proj2 (lookup_ge_None _ _)) by lia.
  by rewrite decide_True.
Qed.

(** The atomic level on an ordinary character. *)
Lemma parseRepetition_ordinary pre c rest :
  ordinary c = true ->
  Z.of_nat (length pre) < INT_MAX ->
  parseRepetition (pre ++ c :: rest) (Z.of_nat (length pre))
  = Return (SymbolPattern c, Z.of_nat (S (length pre))).
Proof.
  intros Hc Hmax. unfold parseRepetition, parseAtomicPattern.
  rewrite char_at_int_nat, char_at_middle. simpl. rewrite Hc.
  unfold int_succ. rewrite decide_True by done. simpl.
  do 2 f_equal. lia.
Qed.

(** The atomic level on anything else. *)
Lemma parseRepetition_special pre c rest :
  ordinary c = false ->
  parseRepetition (pre ++ c :: rest) (Z.of_nat (length pre)) = invalidPattern.
Proof.
  intros Hc. unfold parseRepetition, parseAtomicPattern.
  rewrite char_at_int_nat, char_at_middle. simpl. by rewrite Hc.
Qed.

(** What a successful call of the repetition level has done. *)
Lemma parseRepetition_Return str pos p pos' :
  parseRepetition str pos = Return (p, pos') ->
  exists c, str !! Z.to_nat pos = Some c /\ ordinary c = true /\
            p = SymbolPattern c /\ 0 <= pos /\ pos' = pos + 1.
Proof.
  unfold parseRepetition, parseAtomicPattern, char_at_int, char_at.
  destruct (decide (0 <= pos)) as [Hpos|]; [|done].
  destruct (str !! Z.to_nat pos) as [c|] eqn:Hc.
  - cbn [defined mbind outcome_bind].
    destruct (ordinary c) eqn:Hord; [|done]. unfold int_succ.
    destruct (decide (pos < INT_MAX)); [|done].
    cbn [mbind outcome_bind]. intros [= <- <-]. eauto 10.
  - destruct (decide (Z.to_nat pos = length str)); [|done].
    cbn [defined mbind outcome_bind].
    by replace (ordinary NUL) with false by done.
Qed.

Lemma parseRepetition_fuel str pos : parseRepetition str pos <> OutOfFuel.
Proof.
  unfold parseRepetition, parseAtomicPattern, char_at_int.
  destruct (decide (0 <= pos)); [|done].
  destruct (char_at str (Z.to_nat pos)) as [c|]; [|done].
  cbn [defined mbind outcome_bind].
  destruct (ordinary c); [|done]. unfold int_succ.
  by destruct (decide (pos < INT_MAX)).
Qed.

(** The loop on a run [cs] of ordinary characters that ends at the
    terminator, ['|'] or [')']. *)
Lemma concatLoop_symbols cs : forall pre p fuel rest,
  forallb ordinary cs = true ->
  stopsConcatenation rest ->
  (length cs <= fuel)%nat ->
  Z.of_nat (length (pre ++ cs ++ rest)) <= INT_MAX ->
  concatLoop fuel (pre ++ cs ++ rest) p (Z.of_nat (length pre))
  = Return (concatSymbols p cs, Z.of_nat (length pre + length cs)).
Proof.
  induction cs as [|c cs IH]; intros pre p fuel rest Hcs Hrest Hfuel Hmax.
  - cbn [app length concatSymbols foldl]. rewrite Nat.add_0_r.
    assert (exists c, char_at (pre ++ rest) (length pre) = Some c
                      /\ morePatterns c = false) as (c & Hc & Hstop).
    { destruct rest as [|x rest].
      - exists NUL. by rewrite app_nil_r, char_at_end.
      - exists x. rewrite char_at_middle.
        eauto using stopsConcatenation_morePatterns. }
    destruct fuel; cbn [concatLoop]; rewrite char_at_int_nat, Hc;
      cbn [defined mbind outcome_bind]; by rewrite Hstop.
  - cbn [forallb] in Hcs. apply andb_true_iff in Hcs as [Hc Hcs].
    destruct fuel as [|fuel]; [simpl in Hfuel; lia|].
    rewrite !length_app in Hmax. cbn [length] in Hmax, Hfuel.
    cbn [concatLoop]. rewrite char_at_int_nat.
    change ((c :: cs) ++ rest) with (c :: cs ++ rest).
    rewrite char_at_middle. cbn [defined mbind outcome_bind].
    rewrite (ordinary_morePatterns _ Hc).
    rewrite parseRepetition_ordinary by (done || lia).
    cbn [mbind outcome_bind].
    replace (pre ++ c :: cs ++ rest) with ((pre ++ [c]) ++ cs ++ rest)
      by by rewrite <-app_assoc.
    replace (S (length pre)) with (length (pre ++ [c]))
      by (rewrite length_app; simpl; lia).
    rewrite IH; [|done|done|lia|rewrite !length_app; simpl; lia].
    unfold makeConcatenationPattern. simpl.
    do 2 f_equal. rewrite length_app. simpl. lia.
Qed.

(** The loop on a run [cs] of ordinary characters followed by a character
    that is neither ordinary nor a stop: the atomic level rejects it. *)
Lemma concatLoop_special cs : forall pre p fuel c rest,
  forallb ordinary cs = true ->
  ordinary c = false -> morePatterns c = true ->
  (length cs < fuel)%nat ->
  Z.of_nat (length (pre ++ cs ++ c :: rest)) <= INT_MAX ->
  concatLoop fuel (pre ++ cs ++ c :: rest) p (Z.of_nat (length pre))
  = invalidPattern.
Proof.
  induction cs as [|x cs IH]; intros pre p fuel c rest Hcs Hc Hmore Hfuel Hmax;
    (destruct fuel as [|fuel]; [simpl in Hfuel; lia|]).
  - cbn [app concatLoop]. rewrite char_at_int_nat, char_at_middle.
    cbn [defined mbind outcome_bind]. rewrite Hmore.
    by rewrite parseRepetition_special.
  - cbn [forallb] in Hcs. apply andb_true_iff in Hcs as [Hx Hcs].
    rewrite !length_app in Hmax. cbn [length] in Hmax, Hfuel.
    cbn [concatLoop]. rewrite char_at_int_nat.
    change ((x :: cs) ++ c :: rest) with (x :: cs ++ c :: rest).
    rewrite char_at_middle. cbn [defined mbind outcome_bind].
    rewrite (ordinary_morePatterns _ Hx).
    rewrite parseRepetition_ordinary by (done || lia).
    cbn [mbind outcome_bind].
    replace (pre ++ x :: cs ++ c :: rest)
      with ((pre ++ [x]) ++ cs ++ c :: rest) by by rewrite <-app_assoc.
    replace (S (length pre)) with (length (pre ++ [x]))
      by (rewrite length_app; simpl; lia).
    apply IH; [done|done|done|lia|]. lengths. lia.
Qed.

(** A metacharacter other than ['|'] and [')'] after a run of ordinary
    characters makes the concatenation level fail. *)
Lemma parseConcatenation_special pre c0 cs c rest :
  ordinary c0 = true -> forallb ordinary cs = true ->
  ordinary c = false -> morePatterns c = true ->
  Z.of_nat (length (pre ++ c0 :: cs ++ c :: rest)) <= INT_MAX ->
  parseConcatenation (pre ++ c0 :: cs ++ c :: rest) (Z.of_nat (length pre))
  = invalidPattern.
Proof.
  intros Hc0 Hcs Hc Hmore Hmax. unfold parseConcatenation.
  assert (Z.of_nat (length pre) < INT_MAX) by (lengths; lia).
  rewrite parseRepetition_ordinary by done.
  cbn [mbind outcome_bind].
  replace (pre ++ c0 :: cs ++ c :: rest)
    with ((pre ++ [c0]) ++ cs ++ c :: rest) by by rewrite <-app_assoc.
  replace (S (length pre)) with (length (pre ++ [c0]))
    by (rewrite length_app; simpl; lia).
  apply concatLoop_special; [done|done|done| |]; lengths; lia.
Qed.

(** The loop moves one character forward at every turn, so it never uses
    more fuel than there are characters left. *)
Lemma concatLoop_fuel fuel : forall str p pos,
  Z.of_nat (length str) - pos <= Z.of_nat fuel ->
  concatLoop fuel str p pos <> OutOfFuel.
Proof.
  induction fuel as [|fuel IH]; intros str p pos Hfuel.
  - simpl. unfold char_at_int, char_at. case_decide as Hpos; [|done].
    rewrite (proj2 (lookup_ge_None _ _)) by lia.
    case_decide; [|done]. simpl. done.
  - cbn [concatLoop]. unfold char_at_int. case_decide as Hpos; [|done].
    destruct (char_at str (Z.to_nat pos)) as [c|] eqn:Hc; [|done].
    cbn [defined mbind outcome_bind].
    destruct (morePatterns c); [|done].
    destruct (parseRepetition str pos) as [[p2 pos']| | |] eqn:Hrep;
      [|done|done|by apply parseRepetition_fuel in Hrep].
    cbn [mbind outcome_bind].
    apply parseRepetition_Return in Hrep as (x & Hx & _ & _ & _ & ->).
    apply lookup_lt_Some in Hx. apply IH. lia.
Qed.

(** [parseConcatenation] always ends as the C function does: the fuel of
    the embedding never runs out. *)
Lemma parseConcatenation_fuel str pos : parseConcatenation str pos <> OutOfFuel.
Proof.
  unfold parseConcatenation.
  destruct (parseRepetition str pos) as [[p1 pos']| | |] eqn:Hrep;
    [|done|done|by apply parseRepetition_fuel in Hrep].
  cbn [mbind outcome_bind].
  apply parseRepetition_Return in Hrep as (x & Hx & _ & _ & Hpos & ->).
  apply lookup_lt_Some in Hx. apply concatLoop_fuel. lia.
Qed.

End Parser.

(** ** The checks of the driver *)

Section Driver.
Variable DICT_POS : Z.
Variable can_open : list ascii -> bool.
Implicit Types (argv : list (list ascii)) (pattern rest : list ascii).

Lemma strlen_le pattern : (strlen pattern <= length pattern)%nat.
Proof.
  induction pattern as [|c s IH]; simpl; [done|].
  destruct (Ascii.eqb c NUL); lia.
Qed.

Lemma length_cstring pattern : length (cstring pattern) = strlen pattern.
Proof.
  unfold cstring. rewrite length_take. pose proof (strlen_le pattern). lia.
Qed.

Lemma opening_elem_of c : opening c = true <-> c ∈ lit "[({".
Proof.
  unfold opening. rewrite !orb_true_iff, !Ascii.eqb_eq. simpl.
  rewrite !elem_of_cons, elem_of_nil. tauto.
Qed.

Lemma closing_elem_of c : closing c = true <-> c ∈ lit "])}".
Proof.
  unfold closing. rewrite !orb_true_iff, !Ascii.eqb_eq. simpl.
  rewrite !elem_of_cons, elem_of_nil. tauto.
Qed.

Lemma opening_not_closing c : opening c = true -> closing c = false.
Proof.
  unfold opening, closing. rewrite !orb_true_iff, !Ascii.eqb_eq.
  by intros [[->| ->]| ->].
Qed.

(** One step of the count, as the loop of [main] takes it. *)
Lemma bracketNet_cons c rest :
  bracketNet (c :: rest)
  = (if opening c then 1 else if closing c then -1 else 0) + bracketNet rest.
Proof.
  unfold bracketNet, countOf. rewrite !filter_cons.
  destruct (decide (c ∈ lit "[({")) as [Ho|Ho];
    destruct (decide (c ∈ lit "])}")) as [Hc|Hc];
    rewrite <-opening_elem_of in Ho; rewrite <-closing_elem_of in Hc.
  - apply opening_not_closing in Ho. congruence.
  - rewrite Ho. cbn [length]. lia.
  - apply not_true_is_false in Ho. rewrite Ho, Hc. cbn [length]. lia.
  - apply not_true_is_false in Ho, Hc. rewrite Ho, Hc. lia.
Qed.

(** The counting loop computes the net count; [i] and [count] stay inside
    [int] as long as the string is no longer than [INT_MAX]. *)
Lemma bracketLoop_bracketNet rest : forall i count,
  0 <= i -> - i <= count <= i ->
  i + Z.of_nat (length rest) <= INT_MAX ->
  bracketLoop rest i count = Return (count + bracketNet rest).
Proof.
  induction rest as [|c rest IH]; intros i count Hi Hcount Hmax.
  - cbn [bracketLoop]. f_equal. unfold bracketNet, countOf. simpl. lia.
  - cbn [length] in Hmax. rewrite bracketNet_cons. cbn [bracketLoop].
    unfold int_succ, int_pred.
    rewrite (decide_True (P := i < INT_MAX)) by lia.
    destruct (opening c); [|destruct (closing c)].
    + rewrite decide_True by lia. cbn [mbind outcome_bind].
      rewrite IH by lia. f_equal; lia.
    + rewrite decide_True by lia. cbn [mbind outcome_bind].
      rewrite IH by lia. f_equal; lia.
    + cbn [mbind outcome_bind]. rewrite IH by lia. f_equal; lia.
Qed.

(** Once the command line is accepted, what the pattern check decides is
    what [main] does. *)
Lemma main_checkPattern_Exit argv err :
  checkArguments DICT_POS can_open argv [] = ([], Return ()) ->
  checkPattern argv [] = ([], Exit err) ->
  main DICT_POS can_open argv = ([], Exit err).
Proof.
  intros Hargs Hpat. unfold main, mbind, proc_bind.
  by rewrite Hargs, Hpat.
Qed.

Lemma checkPattern_leading argv c rest :
  c = "*"%char \/ c = "+"%char \/ c = "|"%char ->
  argv !! 1%nat = Some (c :: rest) ->
  checkPattern argv [] = ([], Exit invalidPatternMessage).
Proof.
  intros Hc Hargv. unfold checkPattern, mbind, proc_bind, call, argv_at.
  rewrite decide_True by lia.
  change (Z.to_nat 1) with 1%nat. rewrite Hargv. simpl.
  by destruct Hc as [->| [->| ->]].
Qed.

Lemma checkPattern_unbalanced argv pattern :
  argv !! 1%nat = Some pattern ->
  Z.of_nat (strlen pattern) <= INT_MAX ->
  bracketNet (cstring pattern) <> 0 ->
  checkPattern argv [] = ([], Exit invalidPatternMessage).
Proof.
  intros Hargv Hmax Hnet. unfold checkPattern, mbind, proc_bind, call, argv_at.
  rewrite decide_True by lia.
  change (Z.to_nat 1) with 1%nat. rewrite Hargv. cbn [defined].
  assert (exists c0, char_at_int pattern 0 = Return c0) as [c0 ->].
  { destruct pattern; by eexists. }
  destruct (_ || _); [done|].
  rewrite bracketLoop_bracketNet by (rewrite ?length_cstring; lia).
  rewrite Z.add_0_l. by rewrite decide_True.
Qed.

End Driver.

(** ** The grammar of the parser *)

Section Grammar.
Implicit Types (pre cs rest : list ascii).

(** C5. Parsing ["b"] gives the Symbol for [b] and parsing ["bc"] gives
    Concatenation(Symbol b, Symbol c); in general the concatenation level
    parses one repetition-level pattern and goes on parsing such patterns for
    as long as the next character is neither the end of the string, ['|'] nor
    [')'], nesting the Concatenation nodes to the left.  So after a run
    [c0 cs] of ordinary characters it returns the left-nested tree of the run
    when the next character is one of these three, it goes on into any other
    character and exits when that one is not ordinary, and it exits at once
    when the first character is not ordinary. *)
Theorem parseConcatenation_left_nested pre (c0 : ascii) cs rest :
  ordinary c0 = true ->
  forallb ordinary cs = true ->
  Z.of_nat (length (pre ++ c0 :: cs ++ rest)) <= INT_MAX ->
  parseAlternation (lit "b") 0 = Return (SymbolPattern "b", 1) /\
  parseAlternation (lit "bc") 0
  = Return (ConcatenationPattern (SymbolPattern "b") (SymbolPattern "c"), 2) /\
  (stopsConcatenation rest ->
   parseConcatenation (pre ++ c0 :: cs ++ rest) (Z.of_nat (length pre))
   = Return (concatSymbols (SymbolPattern c0) cs,
             Z.of_nat (length pre + S (length cs)))) /\
  (forall c rest', rest = c :: rest' ->
     ordinary c = false -> ~ stopsConcatenation rest ->
     parseConcatenation (pre ++ c0 :: cs ++ rest) (Z.of_nat (length pre))
     = Exit invalidPatternMessage) /\
  (forall c, ordinary c = false ->
     parseConcatenation (pre ++ c :: cs ++ rest) (Z.of_nat (length pre))
     = Exit invalidPatternMessage).
Proof.
  intros Hc0 Hcs Hmax. split_and!; [done..| | |].
  - intros Hrest. unfold parseConcatenation.
    rewrite !length_app in Hmax. cbn [length] in Hmax.
    rewrite length_app in Hmax.
    rewrite parseRepetition_ordinary by (done || lia).
    cbn [mbind outcome_bind].
    replace (pre ++ c0 :: cs ++ rest) with ((pre ++ [c0]) ++ cs ++ rest)
      by by rewrite <-app_assoc.
    replace (S (length pre)) with (length (pre ++ [c0]))
      by (rewrite length_app; simpl; lia).
    rewrite concatLoop_symbols; [|done|done| |].
    + do 2 f_equal. rewrite length_app. simpl. lia.
    + rewrite !length_app. lia.
    + rewrite !length_app. simpl. lia.
  - intros c rest' -> Hc Hgo.
    apply parseConcatenation_special; [done..| |done].
    unfold morePatterns. simpl in Hgo.
    destruct (Ascii.eqb_spec c NUL); [tauto|].
    destruct (Ascii.eqb_spec c "|"); [tauto|].
    destruct (Ascii.eqb_spec c ")"); [tauto|done].
  - intros c Hc. unfold parseConcatenation.
    by rewrite parseRepetition_special.
Qed.

(** C6. A pattern beginning with ['*'], ['+'] or ['|'] is rejected as an
    invalid pattern: the character is not ordinary, the atomic level has
    nothing else to try, so parsing ends the process with the fixed
    diagnostic and gives no tree; the driver rejects such an argument in
    the same way. *)
Theorem leading_metacharacter_invalid (c : ascii) rest :
  c = "*"%char \/ c = "+"%char \/ c = "|"%char ->
  ordinary c = false /\
  parseAlternation (c :: rest) 0 = Exit invalidPatternMessage /\
  parseAlternation (lit "*") 0 = Exit invalidPatternMessage /\
  parseAlternation (lit "+") 0 = Exit invalidPatternMessage /\
  parseAlternation (lit "|") 0 = Exit invalidPatternMessage /\
  forall DICT_POS can_open argv,
    checkArguments DICT_POS can_open argv [] = ([], Return ()) ->
    argv !! 1%nat = Some (c :: rest) ->
    main DICT_POS can_open argv = ([], Exit invalidPatternMessage).
Proof.
  intros Hc.
  assert (ordinary c = false) as Hord by by destruct Hc as [->| [->| ->]].
  split_and!; [done| |done..|].
  - unfold parseAlternation, parseConcatenation.
    by rewrite (parseRepetition_special [] c rest Hord
                : parseRepetition (c :: rest) 0 = invalidPattern).
  - intros DICT_POS can_open argv Hargs Hargv.
    eauto using main_checkPattern_Exit, checkPattern_leading.
Qed.

(** C7. A pattern whose net count of ['['], ['('], ['{'] against [']'],
    [')'], ['}'] is not zero is rejected as an invalid pattern; and ["(b"]
    fails with the invalid-pattern diagnostic. *)
Theorem unbalanced_brackets_invalid (DICT_POS : Z)
    (can_open : list ascii -> bool) (argv : list (list ascii))
    (pattern : list ascii) :
  checkArguments DICT_POS can_open argv [] = ([], Return ()) ->
  argv !! 1%nat = Some pattern ->
  Z.of_nat (strlen pattern) <= INT_MAX ->
  bracketNet (cstring pattern) <> 0 ->
  main DICT_POS can_open argv = ([], Exit invalidPatternMessage) /\
  bracketNet (cstring (lit "(b")) <> 0 /\
  parseAlternation (lit "(b") 0 = Exit invalidPatternMessage.
Proof.
  intros Hargs Hargv Hmax Hnet. split_and!; [|done..].
  eauto using main_checkPattern_Exit, checkPattern_unbalanced.
Qed.

(** C10. Parsing the empty pattern fails with the invalid-pattern
    diagnostic: the character at the cursor is the terminator, [strchr]
    finds it at the end of the metacharacter list, so it is not ordinary
    and the atomic level rejects it; nothing past the string is read. *)
Theorem empty_pattern_invalid :
  char_at_int (lit "") 0 = Return NUL /\
  strchr metacharacters NUL = Some (length metacharacters) /\
  ordinary NUL = false /\
  parseAtomicPattern (lit "") 0 = Exit invalidPatternMessage /\
  parseAlternation (lit "") 0 = Exit invalidPatternMessage.
Proof. by split_and!. Qed.

End Grammar.

(** ** The demonstration of [main] *)

Section Demonstration.

(** C9, as the code prints it. Matching the pattern ["b"] against ["abc"]
    from all-true marks leaves a mark at boundary 2 only, just after the
    [b]; [reportMarks] writes one mark character before every character of
    the line and one more before the newline, so the line printed is
    [" a b*c "] and the ['*'] stands directly before the third character. *)
Theorem demonstration_b_on_abc :
  parseAlternation (lit "b") 0 = Return (SymbolPattern "b", 1) /\
  pmatch (SymbolPattern "b") 3 (lit "abc") (allTrue 4) (replicate 4 None)
  = Some [Some false; Some false; Some true; Some false] /\
  reportMarks (lit "abc") [Some false; Some false; Some true; Some false]
  = Some (lit " a b*c " ++ [nl]) /\
  take 66 (demonstration []).1
  = lit "For pattern 'b'" ++ [nl]
    ++ lit "Before matching: *a*b*c*" ++ [nl]
    ++ lit "After matching:   a b*c " ++ [nl].
Proof. split_and!; by vm_compute. Qed.

(** The line [" a*bc"] is not what is printed for these marks, with or
    without the newline. *)
Lemma reportMarks_not_compact :
  (after ← pmatch (SymbolPattern "b") 3 (lit "abc") (allTrue 4)
                  (replicate 4 None);
   reportMarks (lit "abc") after) <> Some (lit " a*bc") /\
  (after ← pmatch (SymbolPattern "b") 3 (lit "abc") (allTrue 4)
                  (replicate 4 None);
   reportMarks (lit "abc") after) <> Some (lit " a*bc" ++ [nl]).
Proof. split; by vm_compute. Qed.

(** The whole output of the demonstration. *)
Lemma demonstration_output :
  demonstration []
  = (lit "For pattern 'b'" ++ [nl]
     ++ lit "Before matching: *a*b*c*" ++ [nl]
     ++ lit "After matching:   a b*c " ++ [nl]
     ++ lit "Before matching: *a*b*b*b*c*b*b*d*b*" ++ [nl]
     ++ lit "After matching:   a b*b*b*c b*b*d b*" ++ [nl]
     ++ lit "For pattern 'bc'" ++ [nl]
     ++ lit "Before matching: *a*b*c*b*c*d*b*c*b*" ++ [nl]
     ++ lit "After matching:   a b c*b c*d b c*b " ++ [nl],
     Return EXIT_SUCCESS).
Proof. by vm_compute. Qed.

(** A pattern that passes both checks lets [main] run the demonstration. *)
Lemma main_accepts_balanced :
  main 3 (fun _ => true) [lit "mygrep"; lit "a(b)c"]
  = ((demonstration []).1, Return EXIT_SUCCESS).
Proof. by vm_compute. Qed.

(** The parsing functions by themselves accept strings that the bracket
    count of [main] rejects. *)
Lemma parseAlternation_unbalanced_accepted :
  parseAlternation (lit "a]") 0
  = Return (ConcatenationPattern (SymbolPattern "a") (SymbolPattern "]"), 2) /\
  parseAlternation (lit "a)") 0 = Return (SymbolPattern "a", 1).
Proof. split; by vm_compute. Qed.

End Demonstration.

(** ** The contracts at concrete inputs *)

Section Witnesses.

Lemma pmatch_reachability_witness :
  exists after : list bool,
    pmatch (ConcatenationPattern (SymbolPattern "b") (SymbolPattern "c"))
           (Z.of_nat (length (lit "abcbc"))) (lit "abcbc")
           (Some <$> replicate 6 true) (replicate 6 None)
    = Some (Some <$> after) /\
    length after = S (length (lit "abcbc")) /\
    forall i, (i <= length (lit "abcbc"))%nat ->
      after !! i = Some true <->
      exists j, (j <= i)%nat /\ replicate 6 true !! j = Some true /\
                matches (ConcatenationPattern (SymbolPattern "b")
                                              (SymbolPattern "c"))
                        (span j i (lit "abcbc")).
Proof.
  apply (pmatch_reachability
           (ConcatenationPattern (SymbolPattern "b") (SymbolPattern "c"))
           (lit "abcbc") (replicate 6 true) (replicate 6 None));
    [vm_compute; reflexivity | reflexivity | reflexivity].
Defined.

Lemma matchSymbolPattern_rule_witness :
  exists after : list bool,
    pmatch (SymbolPattern "b") (Z.of_nat (length (lit "abbc"))) (lit "abbc")
           (Some <$> [true; false; true; true; true]) (replicate 5 None)
    = Some (Some <$> after) /\
    length after = S (length (lit "abbc")) /\
    after !! 0%nat = Some false /\
    (forall i b x, [true; false; true; true; true] !! i = Some b ->
                   lit "abbc" !! i = Some x ->
       after !! S i = Some (b && Ascii.eqb x "b")) /\
    countTrue after = length (hits "b" (lit "abbc") [true; false; true; true; true]).
Proof.
  apply (matchSymbolPattern_rule "b" (lit "abbc")
           [true; false; true; true; true] (replicate 5 None));
    reflexivity.
Defined.

Lemma matchConcatenationPattern_composition_witness :
  exists mid after : list bool,
    pmatch (SymbolPattern "b") (Z.of_nat (length (lit "abc"))) (lit "abc")
           (Some <$> replicate 4 true) (replicate 4 (Some true))
    = Some (Some <$> mid) /\
    pmatch (SymbolPattern "c") (Z.of_nat (length (lit "abc"))) (lit "abc")
           (Some <$> mid) (replicate 4 None)
    = Some (Some <$> after) /\
    matchConcatenationPattern (SymbolPattern "b") (SymbolPattern "c")
      (Z.of_nat (length (lit "abc"))) (lit "abc")
      (Some <$> replicate 4 true) (replicate 4 None)
    = Some (Some <$> after).
Proof.
  apply (matchConcatenationPattern_composition
           (SymbolPattern "b") (SymbolPattern "c") (lit "abc")
           (replicate 4 true) (replicate 4 (Some true)) (replicate 4 None));
    [vm_compute; reflexivity | reflexivity | reflexivity | reflexivity].
Defined.

Lemma concatenation_associative_witness :
  exists after : list bool,
    pmatch (ConcatenationPattern
              (ConcatenationPattern (SymbolPattern "a") (SymbolPattern "b"))
              (SymbolPattern "c"))
           (Z.of_nat (length (lit "xabcabc"))) (lit "xabcabc")
           (Some <$> replicate 8 true) (replicate 8 None)
    = Some (Some <$> after) /\
    pmatch (ConcatenationPattern
              (SymbolPattern "a")
              (ConcatenationPattern (SymbolPattern "b") (SymbolPattern "c")))
           (Z.of_nat (length (lit "xabcabc"))) (lit "xabcabc")
           (Some <$> replicate 8 true) (replicate 8 None)
    = Some (Some <$> after).
Proof.
  apply (concatenation_associative
           (SymbolPattern "a") (SymbolPattern "b") (SymbolPattern "c")
           (lit "xabcabc") (replicate 8 true) (replicate 8 None));
    [vm_compute; reflexivity | reflexivity | reflexivity].
Defined.

Lemma pmatch_all_false_witness :
  pmatch (ConcatenationPattern (SymbolPattern "b") (SymbolPattern "c"))
         (Z.of_nat (length (lit "abc"))) (lit "abc")
         (replicate (S (length (lit "abc"))) (Some false)) (replicate 4 None)
  = Some (replicate (S (length (lit "abc"))) (Some false)).
Proof.
  apply (pmatch_all_false
           (ConcatenationPattern (SymbolPattern "b") (SymbolPattern "c"))
           (lit "abc") (replicate 4 None));
    [vm_compute; reflexivity | reflexivity].
Defined.

Lemma parseConcatenation_left_nested_witness :
  parseAlternation (lit "b") 0 = Return (SymbolPattern "b", 1) /\
  parseAlternation (lit "bc") 0
  = Return (ConcatenationPattern (SymbolPattern "b") (SymbolPattern "c"), 2) /\
  (stopsConcatenation (lit ")x") ->
   parseConcatenation (lit "(" ++ "a"%char :: lit "bc" ++ lit ")x")
                      (Z.of_nat (length (lit "(")))
   = Return (concatSymbols (SymbolPattern "a") (lit "bc"),
             Z.of_nat (length (lit "(") + S (length (lit "bc"))))) /\
  (forall c rest', lit ")x" = c :: rest' ->
     ordinary c = false -> ~ stopsConcatenation (lit ")x") ->
     parseConcatenation (lit "(" ++ "a"%char :: lit "bc" ++ lit ")x")
                        (Z.of_nat (length (lit "(")))
     = Exit invalidPatternMessage) /\
  (forall c, ordinary c = false ->
     parseConcatenation (lit "(" ++ c :: lit "bc" ++ lit ")x")
                        (Z.of_nat (length (lit "(")))
     = Exit invalidPatternMessage).
Proof.
  apply (parseConcatenation_left_nested (lit "(") "a" (lit "bc") (lit ")x"));
    [reflexivity | reflexivity | vm_compute; discriminate].
Defined.

Lemma leading_metacharacter_invalid_witness :
  ordinary "+" = false /\
  parseAlternation ("+"%char :: lit "a") 0 = Exit invalidPatternMessage /\
  parseAlternation (lit "*") 0 = Exit invalidPatternMessage /\
  parseAlternation (lit "+") 0 = Exit invalidPatternMessage /\
  parseAlternation (lit "|") 0 = Exit invalidPatternMessage /\
  forall DICT_POS can_open argv,
    checkArguments DICT_POS can_open argv [] = ([], Return ()) ->
    argv !! 1%nat = Some ("+"%char :: lit "a") ->
    main DICT_POS can_open argv = ([], Exit invalidPatternMessage).
Proof.
  apply (leading_metacharacter_invalid "+" (lit "a")).
  right; left; reflexivity.
Defined.

Lemma unbalanced_brackets_invalid_witness :
  main 3 (fun _ => true) [lit "mygrep"; lit "a(b[c]"]
  = ([], Exit invalidPatternMessage) /\
  bracketNet (cstring (lit "(b")) <> 0 /\
  parseAlternation (lit "(b") 0 = Exit invalidPatternMessage.
Proof.
  apply (unbalanced_brackets_invalid 3 (fun _ => true)
           [lit "mygrep"; lit "a(b[c]"] (lit "a(b[c]"));
    [reflexivity | reflexivity | vm_compute; discriminate
    | vm_compute; discriminate].
Defined.

End Witnesses.

(** ** What a defined call of the matcher has read and written *)

Section EngineBounds.
Implicit Types (str : list ascii) (before a r : list cell).

Lemma store_Some a i v r :
  store a i v = Some r -> (i < length a)%nat /\ r = <[i := Some v]> a.
Proof. unfold store. case_decide; naive_solver. Qed.

Lemma load_Some a i b : load a i = Some b <-> a !! i = Some (Some b).
Proof.
  unfold load. destruct (a !! i) as [[x|]|]; naive_solver.
Qed.

Lemma symbolStep_Some sym str before i v :
  symbolStep sym str before i = Some v ->
  exists b, before !! i = Some (Some b) /\
            (b = true -> (i <= length str)%nat).
Proof.
  unfold symbolStep. destruct (load before i) as [b|] eqn:Hb; [|done].
  apply load_Some in Hb. simpl. intros Hv. exists b. split; [done|].
  intros ->. unfold char_at in Hv.
  destruct (str !! i) eqn:Hi.
  - apply lookup_lt_Some in Hi. lia.
  - case_decide; [lia|done].
Qed.

(** A loop that ends has stayed inside [after], has initialised the cells
    [i+1 .. i+n], has left the others alone and has read [before[i .. i+n-1]]. *)
Lemma symbolLoop_Some sym str before n : forall i a r,
  symbolLoop sym str before n i a = Some r ->
  length r = length a /\
  (n = O \/ i + n < length a)%nat /\
  (forall k, (i < k <= i + n)%nat -> exists b, r !! k = Some (Some b)) /\
  (forall k, (k <= i \/ i + n < k)%nat -> r !! k = a !! k) /\
  (forall j, (i <= j < i + n)%nat ->
     exists b, before !! j = Some (Some b) /\ (b = true -> (j <= length str)%nat)).
Proof.
  induction n as [|n IH]; intros i a r; cbn [symbolLoop].
  - intros [= <-]. split_and!; [done|by left|intros; lia|done|intros; lia].
  - destruct (symbolStep sym str before i) as [v|] eqn:Hstep; [|done].
    cbn [mbind option_bind].
    destruct (store a (S i) v) as [a'|] eqn:Hstore; [|done].
    cbn [mbind option_bind]. intros Hloop.
    apply store_Some in Hstore as [Hi ->].
    apply IH in Hloop as (Hlen & Hroom & Hinit & Hframe & Hread).
    rewrite length_insert in Hlen, Hroom.
    split_and!.
    + done.
    + right. lia.
    + intros k Hk. destruct (decide (k = S i)) as [->|Hne].
      * rewrite Hframe by lia. rewrite list_lookup_insert_eq by lia. eauto.
      * apply Hinit. lia.
    + intros k Hk. rewrite Hframe by lia.
      apply list_lookup_insert_ne. lia.
    + intros j Hj. destruct (decide (j = i)) as [->|Hne].
      * by apply symbolStep_Some in Hstep.
      * apply Hread. lia.
Qed.

(** X1. A call of [match] that is defined has stayed inside its arrays:
    [after] holds more than [len] marks and keeps its length, the marks
    [after[0 .. len]] are initialised on return, the cells beyond are
    untouched, and the marks [before[0 .. len-1]] that were read were
    initialised, with [str[j]] inside the string wherever [before[j]] is
    true. *)
Theorem pmatch_defined_bounds (p : Pattern) (len : Z) str : forall before a r,
  0 <= len ->
  pmatch p len str before a = Some r ->
  len < Z.of_nat (length a) /\
  length r = length a /\
  (forall k, Z.of_nat k <= len -> exists b, r !! k = Some (Some b)) /\
  (forall k, len < Z.of_nat k -> r !! k = a !! k) /\
  (forall j, Z.of_nat j < len ->
     exists b, before !! j = Some (Some b) /\ (b = true -> (j <= length str)%nat)).
Proof.
  induction p as [c|p1 IH1 p2 IH2]; intros before a r Hlen; cbn [pmatch].
  - unfold matchSymbolPattern.
    destruct (store a 0 false) as [a0|] eqn:Hstore; [|done].
    cbn [mbind option_bind]. intros Hloop.
    apply store_Some in Hstore as [H0 ->].
    apply symbolLoop_Some in Hloop as (Hl & Hroom & Hinit & Hframe & Hread).
    rewrite length_insert in Hl, Hroom. split_and!.
    + lia.
    + done.
    + intros k Hk. destruct k as [|k].
      * rewrite Hframe by lia. rewrite list_lookup_insert_eq by lia. eauto.
      * apply Hinit. lia.
    + intros k Hk. rewrite Hframe by lia. apply list_lookup_insert_ne. lia.
    + intros j Hj. apply Hread. lia.
  - case_decide; [|done].
    destruct (alloca (len + 1)) as [mid|]; [|done]. cbn [mbind option_bind].
    destruct (pmatch p1 len str before mid) as [mid'|] eqn:H1; [|done].
    cbn [mbind option_bind]. intros H2.
    apply IH2 in H2 as (? & ? & ? & ? & _); [|done].
    apply IH1 in H1 as (_ & _ & _ & _ & ?); [|done].
    by split_and!.
Qed.

Lemma pmatch_defined_bounds_witness :
  3 < Z.of_nat (length (replicate 6 (None : cell))) /\
  length [Some false; Some false; Some false; Some true; None; None]
  = length (replicate 6 (None : cell)) /\
  (forall k, Z.of_nat k <= 3 ->
     exists b, [Some false; Some false; Some false; Some true; None; None] !! k
               = Some (Some b)) /\
  (forall k, 3 < Z.of_nat k ->
     [Some false; Some false; Some false; Some true; None; None] !! k
     = replicate 6 (None : cell) !! k) /\
  (forall j, Z.of_nat j < 3 ->
     exists b, [Some true; Some true; Some false; None] !! j = Some (Some b) /\
               (b = true -> (j <= length (lit "abc"))%nat)).
Proof.
  apply (pmatch_defined_bounds
           (ConcatenationPattern (SymbolPattern "b") (SymbolPattern "c"))
           3 (lit "abc") [Some true; Some true; Some false; None]
           (replicate 6 None));
    [lia | reflexivity].
Defined.

End EngineBounds.

(** ** The tree as a word *)

Section EngineWord.
Implicit Types (str s : list ascii) (before : list bool) (p q : Pattern).

Lemma word_nonempty p : (1 <= length (word p))%nat.
Proof. induction p; simpl; rewrite ?length_app; simpl; lia. Qed.

(** A tree of Symbol and Concatenation nodes matches its word and nothing
    else. *)
Lemma matches_word p : forall s, matches p s <-> s = word p.
Proof.
  induction p as [c|p1 IH1 p2 IH2]; intros s; simpl.
  - apply matches_symbol_iff.
  - rewrite matches_concatenation_iff. split.
    + intros (s1 & s2 & -> & H1 & H2). apply IH1 in H1. apply IH2 in H2.
      by subst.
    + intros ->. exists (word p1), (word p2).
      split_and!; [done|by apply IH1|by apply IH2].
Qed.

Lemma marksAfter_word str p before i :
  length before = S (length str) -> (i <= length str)%nat ->
  marksAfter p str before !! i = Some true <->
  (length (word p) <= i)%nat /\
  before !! (i - length (word p))%nat = Some true /\
  span (i - length (word p)) i str = word p.
Proof.
  intros Hbefore Hi. rewrite marksAfter_matches by done.
  setoid_rewrite matches_word. split.
  - intros (j & Hj & Hb & Hspan).
    assert (Hlen := f_equal length Hspan). rewrite length_span in Hlen by lia.
    pose proof (word_nonempty p).
    replace (i - length (word p))%nat with j by lia.
    split_and!; (done || lia).
  - intros (Hw & Hb & Hspan). exists (i - length (word p))%nat.
    split_and!; (done || lia).
Qed.

Lemma marks_eq (l1 l2 : list bool) :
  length l1 = length l2 ->
  (forall i, l1 !! i = Some true <-> l2 !! i = Some true) ->
  l1 = l2.
Proof.
  intros Hlen Hiff. apply list_eq. intros i.
  destruct (l1 !! i) as [b1|] eqn:H1, (l2 !! i) as [b2|] eqn:H2.
  - specialize (Hiff i). rewrite H1, H2 in Hiff. destruct Hiff as [Hl Hr].
    destruct b1, b2; [done|by specialize (Hl eq_refl)
                     |by specialize (Hr eq_refl)|done].
  - apply lookup_lt_Some in H1. apply lookup_ge_None in H2. lia.
  - apply lookup_lt_Some in H2. apply lookup_ge_None in H1. lia.
  - done.
Qed.

(** X2. Matching a tree is searching for its word: [after[i]] is true
    exactly when the word of the tree ends at [i] and [before] is true where
    it starts; no pattern leaves a mark at position 0. *)
Theorem pmatch_word p str before (after0 : list cell) :
  Z.of_nat (length str) < INT_MAX ->
  length before = S (length str) ->
  length after0 = S (length str) ->
  exists after : list bool,
    pmatch p (Z.of_nat (length str)) str (Some <$> before) after0
    = Some (Some <$> after) /\
    after !! 0%nat = Some false /\
    forall i, (i <= length str)%nat ->
      after !! i = Some true <->
      (length (word p) <= i)%nat /\
      before !! (i - length (word p))%nat = Some true /\
      span (i - length (word p)) i str = word p.
Proof.
  intros Hmax Hbefore Hafter. exists (marksAfter p str before).
  split_and!.
  - by apply pmatch_marksAfter.
  - pose proof (length_marksAfter p str before Hbefore) as Hlen.
    destruct (marksAfter p str before !! 0%nat) as [[|]|] eqn:H0.
    + apply marksAfter_word in H0 as (Hw & _); [|done|lia].
      pose proof (word_nonempty p). lia.
    + done.
    + apply lookup_ge_None in H0. lia.
  - intros i Hi. by apply marksAfter_word.
Qed.

Lemma pmatch_word_witness :
  exists after : list bool,
    pmatch (ConcatenationPattern (SymbolPattern "b") (SymbolPattern "c"))
           (Z.of_nat (length (lit "abcbc"))) (lit "abcbc")
           (Some <$> [true; false; true; true; true; true]) (replicate 6 None)
    = Some (Some <$> after) /\
    after !! 0%nat = Some false /\
    forall i, (i <= length (lit "abcbc"))%nat ->
      after !! i = Some true <->
      (length (word (ConcatenationPattern (SymbolPattern "b")
                                          (SymbolPattern "c"))) <= i)%nat /\
      [true; false; true; true; true; true]
        !! (i - length (word (ConcatenationPattern (SymbolPattern "b")
                                                   (SymbolPattern "c"))))%nat
      = Some true /\
      span (i - length (word (ConcatenationPattern (SymbolPattern "b")
                                                   (SymbolPattern "c"))))
           i (lit "abcbc")
      = word (ConcatenationPattern (SymbolPattern "b") (SymbolPattern "c")).
Proof.
  apply (pmatch_word
           (ConcatenationPattern (SymbolPattern "b") (SymbolPattern "c"))
           (lit "abcbc") [true; false; true; true; true; true]
           (replicate 6 None));
    [vm_compute; reflexivity | reflexivity | reflexivity].
Defined.

(** X3. Only the word of a tree matters, not how its concatenations are
    grouped: two trees with the same word give the same [after] vector. *)
Theorem pmatch_same_word p q str before (after0 : list cell) :
  word p = word q ->
  Z.of_nat (length str) < INT_MAX ->
  length before = S (length str) ->
  length after0 = S (length str) ->
  exists after : list bool,
    pmatch p (Z.of_nat (length str)) str (Some <$> before) after0
    = Some (Some <$> after) /\
    pmatch q (Z.of_nat (length str)) str (Some <$> before) after0
    = Some (Some <$> after).
Proof.
  intros Hword Hmax Hbefore Hafter. exists (marksAfter p str before).
  rewrite !pmatch_marksAfter by done. split; [done|]. do 2 f_equal.
  apply marks_eq; [by rewrite !length_marksAfter|].
  intros i. destruct (decide (i <= length str)%nat) as [Hi|Hi].
  - rewrite !marksAfter_word by done. by rewrite Hword.
  - pose proof (length_marksAfter p str before Hbefore).
    pose proof (length_marksAfter q str before Hbefore).
    rewrite !(proj2 (lookup_ge_None _ _)) by lia. done.
Qed.

Lemma pmatch_same_word_witness :
  exists after : list bool,
    pmatch (ConcatenationPattern
              (ConcatenationPattern (SymbolPattern "a") (SymbolPattern "b"))
              (ConcatenationPattern (SymbolPattern "c") (SymbolPattern "d")))
           (Z.of_nat (length (lit "xabcd"))) (lit "xabcd")
           (Some <$> replicate 6 true) (replicate 6 None)
    = Some (Some <$> after) /\
    pmatch (ConcatenationPattern
              (SymbolPattern "a")
              (ConcatenationPattern
                 (ConcatenationPattern (SymbolPattern "b") (SymbolPattern "c"))
                 (SymbolPattern "d")))
           (Z.of_nat (length (lit "xabcd"))) (lit "xabcd")
           (Some <$> replicate 6 true) (replicate 6 None)
    = Some (Some <$> after).
Proof.
  apply (pmatch_same_word
           (ConcatenationPattern
              (ConcatenationPattern (SymbolPattern "a") (SymbolPattern "b"))
              (ConcatenationPattern (SymbolPattern "c") (SymbolPattern "d")))
           (ConcatenationPattern
              (SymbolPattern "a")
              (ConcatenationPattern
                 (ConcatenationPattern (SymbolPattern "b") (SymbolPattern "c"))
                 (SymbolPattern "d")))
           (lit "xabcd") (replicate 6 true) (replicate 6 None));
    [reflexivity | vm_compute; reflexivity | reflexivity | reflexivity].
Defined.

Lemma marksAfter_union p str : forall b1 b2,
  marksAfter p str (zip_with orb b1 b2)
  = zip_with orb (marksAfter p str b1) (marksAfter p str b2).
Proof.
  induction p as [c|p1 IH1 p2 IH2]; intros b1 b2; cbn [marksAfter].
  - cbn [zip_with]. f_equal. revert b1 b2.
    induction str as [|x str IH]; intros [|x1 b1] [|x2 b2]; simpl; try done.
    rewrite IH. f_equal. by destruct x1, x2, (Ascii.eqb x c).
  - by rewrite IH1, IH2.
Qed.

(** X4. Matching distributes over the union of start marks: from the
    pointwise or of two [before] vectors the result is the pointwise or of
    the two results, so more start marks never give fewer end marks. *)
Theorem pmatch_union p str (b1 b2 : list bool) (after0 : list cell) :
  Z.of_nat (length str) < INT_MAX ->
  length b1 = S (length str) -> length b2 = S (length str) ->
  length after0 = S (length str) ->
  exists a1 a2 : list bool,
    pmatch p (Z.of_nat (length str)) str (Some <$> b1) after0
    = Some (Some <$> a1) /\
    pmatch p (Z.of_nat (length str)) str (Some <$> b2) after0
    = Some (Some <$> a2) /\
    pmatch p (Z.of_nat (length str)) str (Some <$> zip_with orb b1 b2) after0
    = Some (Some <$> zip_with orb a1 a2).
Proof.
  intros Hmax H1 H2 Hafter.
  exists (marksAfter p str b1), (marksAfter p str b2).
  rewrite !pmatch_marksAfter; [|done|rewrite length_zip_with; lia|done..].
  by rewrite marksAfter_union.
Qed.

Lemma pmatch_union_witness :
  exists a1 a2 : list bool,
    pmatch (SymbolPattern "b") (Z.of_nat (length (lit "bbb"))) (lit "bbb")
           (Some <$> [true; false; false; false]) (replicate 4 None)
    = Some (Some <$> a1) /\
    pmatch (SymbolPattern "b") (Z.of_nat (length (lit "bbb"))) (lit "bbb")
           (Some <$> [false; false; true; false]) (replicate 4 None)
    = Some (Some <$> a2) /\
    pmatch (SymbolPattern "b") (Z.of_nat (length (lit "bbb"))) (lit "bbb")
           (Some <$> zip_with orb [true; false; false; false]
                                  [false; false; true; false])
           (replicate 4 None)
    = Some (Some <$> zip_with orb a1 a2).
Proof.
  apply (pmatch_union (SymbolPattern "b") (lit "bbb")
           [true; false; false; false] [false; false; true; false]
           (replicate 4 None));
    [vm_compute; reflexivity | reflexivity | reflexivity | reflexivity].
Defined.

End EngineWord.

(** ** The line [reportMarks] prints *)

Section Report.
Implicit Types (str rest out : list ascii) (marks : list cell).

Lemma markChar_Some marks i m :
  markChar marks i = Some m <->
  exists b : bool, marks !! i = Some (Some b) /\ m = if b then "*"%char else " "%char.
Proof.
  unfold markChar. destruct (load marks i) as [b|] eqn:Hb; simpl.
  - apply load_Some in Hb. split.
    + intros [= <-]. eauto.
    + intros (b' & Hb' & ->). by simplify_eq.
  - split; [done|]. intros (b & Hb' & _). apply load_Some in Hb'. congruence.
Qed.

(** What the loop prints from index [i] on, when the marks it needs are
    there and the index stays an [int]. *)
Lemma reportLoop_format marks rest : forall i,
  (forall k, (k <= strlen rest)%nat -> exists b, marks !! (i + k)%nat = Some (Some b)) ->
  Z.of_nat (i + strlen rest) <= INT_MAX ->
  exists out,
    reportLoop rest marks i = Some out /\
    length out = (2 * strlen rest + 2)%nat /\
    (forall k (b : bool), (k <= strlen rest)%nat ->
       marks !! (i + k)%nat = Some (Some b) ->
       out !! (2 * k)%nat = Some (if b then "*"%char else " "%char)) /\
    (forall k, (k < strlen rest)%nat -> out !! (2 * k + 1)%nat = rest !! k) /\
    out !! (2 * strlen rest + 1)%nat = Some nl.
Proof.
  assert (Hlast : forall i,
    (exists b, marks !! (i + 0)%nat = Some (Some b)) ->
    exists out,
      (m ← markChar marks i; Some [m; "010"%char]) = Some out /\
      length out = 2%nat /\
      (forall k (b : bool), (k <= 0)%nat ->
         marks !! (i + k)%nat = Some (Some b) ->
         out !! (2 * k)%nat = Some (if b then "*"%char else " "%char)) /\
      (forall k, (k < 0)%nat -> out !! (2 * k + 1)%nat = @None ascii) /\
      out !! 1%nat = Some nl).
  { intros i [b Hb]. rewrite Nat.add_0_r in Hb.
    rewrite (proj2 (markChar_Some marks i _) (ex_intro _ b (conj Hb eq_refl))).
    eexists. split_and!; [done|done| |intros; lia|done].
    intros k b' Hk Hb'. assert (k = 0)%nat as -> by lia.
    rewrite Nat.add_0_r in Hb'. by simplify_eq. }
  induction rest as [|c rest IH]; intros i Hmarks Hmax.
  - cbn [reportLoop strlen]. destruct (Hlast i) as (out & ? & ? & ? & ? & ?);
      [apply Hmarks; simpl; lia|].
    exists out. split_and!; try done; intros k Hk; simpl in Hk; lia.
  - cbn [reportLoop strlen] in *. destruct (Ascii.eqb c NUL) eqn:Hc.
    + destruct (Hlast i) as (out & ? & ? & ? & ? & ?); [apply Hmarks; lia|].
      exists out. split_and!; try done; intros k Hk; lia.
    + destruct (Hmarks 0%nat) as [b Hb]; [lia|]. rewrite Nat.add_0_r in Hb.
      rewrite (proj2 (markChar_Some marks i _) (ex_intro _ b (conj Hb eq_refl))).
      cbn [mbind option_bind]. rewrite decide_True by lia.
      destruct (IH (S i)) as (out & -> & Hlen & Hmark & Hchar & Hnl).
      { intros k Hk. replace (S i + k)%nat with (i + S k)%nat by lia.
        apply Hmarks. lia. }
      { lia. }
      cbn [mbind option_bind]. eexists. split; [done|]. split_and!.
      * cbn [length]. lia.
      * intros k b' Hk Hb'. destruct k as [|k].
        { rewrite Nat.add_0_r in Hb'. by simplify_eq. }
        replace (2 * S k)%nat with (S (S (2 * k))) by lia. cbn [lookup list_lookup].
        apply Hmark; [lia|]. by replace (S i + k)%nat with (i + S k)%nat by lia.
      * intros k Hk. destruct k as [|k]; [done|].
        replace (2 * S k + 1)%nat with (S (S (2 * k + 1))) by lia.
        cbn [lookup list_lookup]. apply Hchar. lia.
      * replace (2 * S (strlen rest) + 1)%nat
          with (S (S (2 * strlen rest + 1))) by lia.
        done.
Qed.

(** The loop reads every mark up to the end of the string, and its index
    stays an [int]. *)
Lemma reportLoop_Some marks rest : forall i out,
  reportLoop rest marks i = Some out ->
  (forall k, (k <= strlen rest)%nat -> exists b, marks !! (i + k)%nat = Some (Some b)) /\
  (strlen rest = O \/ Z.of_nat (i + strlen rest) <= INT_MAX).
Proof.
  assert (Hlast : forall i out,
    (m ← markChar marks i; Some [m; "010"%char]) = Some out ->
    forall k, (k <= 0)%nat -> exists b, marks !! (i + k)%nat = Some (Some b)).
  { intros i out Hout k Hk. assert (k = 0)%nat as -> by lia.
    rewrite Nat.add_0_r.
    destruct (markChar marks i) as [m|] eqn:Hm; [|done].
    apply markChar_Some in Hm as (b & Hb & _). eauto. }
  induction rest as [|c rest IH]; intros i out; cbn [reportLoop strlen].
  - intros Hout. split; [by eapply Hlast|by left].
  - destruct (Ascii.eqb c NUL); [intros Hout; split; [by eapply Hlast|by left]|].
    destruct (markChar marks i) as [m|] eqn:Hm; [|done].
    cbn [mbind option_bind]. case_decide as Hi; [|done].
    destruct (reportLoop rest marks (S i)) as [out'|] eqn:Hrest; [|done].
    intros _. destruct (IH (S i) out' Hrest) as [Hmarks Hmax]. split.
    + intros k Hk. destruct k as [|k].
      * rewrite Nat.add_0_r. apply markChar_Some in Hm as (b & Hb & _). eauto.
      * replace (i + S k)%nat with (S i + k)%nat by lia. apply Hmarks. lia.
    + right. lia.
Qed.

(** X5. [reportMarks] is defined exactly when the marks
    [marks[0 .. strlen(str)]] are there and initialised, one mark more than
    the line has characters, and the line is no longer than [INT_MAX], so
    that the index [i] stays an [int]. *)
Theorem reportMarks_defined_iff str marks :
  is_Some (reportMarks str marks) <->
  (forall k, (k <= strlen str)%nat -> exists b, marks !! k = Some (Some b)) /\
  Z.of_nat (strlen str) <= INT_MAX.
Proof.
  unfold reportMarks. split.
  - intros [out Hout].
    destruct (reportLoop_Some marks str 0 out Hout) as [Hmarks Hmax].
    split; [done|]. destruct Hmax as [->|Hmax]; [done|]. by simpl in Hmax.
  - intros [Hmarks Hmax].
    destruct (reportLoop_format marks str 0) as (out & -> & _); [|done|done].
    intros k Hk. by apply Hmarks.
Qed.

(** X6. The line printed for a string of [n] characters (up to its
    terminator, [n] at most [INT_MAX]) has [2n+2] characters: ['*'] or a
    space for the mark [k] at position [2k], the character [k] of the string
    at position [2k+1], and a newline at the end. *)
Theorem reportMarks_format str marks :
  (forall k, (k <= strlen str)%nat -> exists b, marks !! k = Some (Some b)) ->
  Z.of_nat (strlen str) <= INT_MAX ->
  exists out,
    reportMarks str marks = Some out /\
    length out = (2 * strlen str + 2)%nat /\
    (forall k (b : bool), (k <= strlen str)%nat ->
       marks !! k = Some (Some b) ->
       out !! (2 * k)%nat = Some (if b then "*"%char else " "%char)) /\
    (forall k, (k < strlen str)%nat -> out !! (2 * k + 1)%nat = str !! k) /\
    out !! (2 * strlen str + 1)%nat = Some nl.
Proof.
  intros Hmarks Hmax. by apply (reportLoop_format marks str 0).
Qed.

Lemma reportMarks_format_witness :
  exists out,
    reportMarks (lit "abc") [Some false; Some false; Some true; Some false]
    = Some out /\
    length out = (2 * strlen (lit "abc") + 2)%nat /\
    (forall k (b : bool), (k <= strlen (lit "abc"))%nat ->
       [Some false; Some false; Some true; Some false] !! k = Some (Some b) ->
       out !! (2 * k)%nat = Some (if b then "*"%char else " "%char)) /\
    (forall k, (k < strlen (lit "abc"))%nat ->
       out !! (2 * k + 1)%nat = lit "abc" !! k) /\
    out !! (2 * strlen (lit "abc") + 1)%nat = Some nl.
Proof.
  apply (reportMarks_format (lit "abc")
           [Some false; Some false; Some true; Some false]).
  - intros [|[|[|[|k]]]] Hk; simpl in *; eauto; lia.
  - vm_compute. discriminate.
Defined.

(** X7. The line printed determines the marks: two vectors of marks that
    print the same line for a string agree on the marks [0 .. strlen(str)]. *)
Theorem reportMarks_injective str (m1 m2 : list bool) out :
  reportMarks str (Some <$> m1) = Some out ->
  reportMarks str (Some <$> m2) = Some out ->
  take (S (strlen str)) m1 = take (S (strlen str)) m2.
Proof.
  intros H1 H2.
  assert (forall (m : list bool), reportMarks str (Some <$> m) = Some out ->
    forall k, (k <= strlen str)%nat ->
      exists b : bool, m !! k = Some b /\
        out !! (2 * k)%nat = Some (if b then "*"%char else " "%char)) as Hread.
  { intros m Hm k Hk.
    destruct (reportLoop_Some (Some <$> m) str 0 out Hm) as [Hthere Hmax].
    destruct (reportLoop_format (Some <$> m) str 0 Hthere)
      as (out' & Hout' & _ & Hmark & _);
      [destruct Hmax as [->|?]; [done|lia]|].
    unfold reportMarks in Hm. rewrite Hm in Hout'. simplify_eq.
    destruct (Hthere k Hk) as [b Hb]. exists b. split.
    - rewrite list_lookup_fmap in Hb. simpl in Hb.
      destruct (m !! k); by simplify_eq/=.
    - by apply Hmark. }
  apply list_eq. intros k. rewrite !lookup_take.
  case_decide as Hk; [|done].
  destruct (Hread m1 H1 k) as (b1 & Hb1 & E1); [lia|].
  destruct (Hread m2 H2 k) as (b2 & Hb2 & E2); [lia|].
  rewrite Hb1, Hb2. rewrite E1 in E2. by destruct b1, b2.
Qed.

Lemma reportMarks_injective_witness :
  take (S (strlen (lit "ab"))) [false; true; false; true]
  = take (S (strlen (lit "ab"))) [false; true; false; false].
Proof.
  apply (reportMarks_injective (lit "ab") [false; true; false; true]
           [false; true; false; false]
           (lit " a*b " ++ [nl]));
    reflexivity.
Defined.

End Report.

(** ** What the parser accepts *)

Section ParserExtras.
Implicit Types (str pre cs rest : list ascii) (p q : Pattern) (pos : Z).

Lemma strchr_is_Some (s : list ascii) c :
  NUL ∉ s -> is_Some (strchr s c) <-> c ∈ s \/ c = NUL.
Proof.
  induction s as [|x s IH]; intros Hs; cbn [strchr].
  - destruct (Ascii.eqb_spec c NUL) as [->|Hc].
    + split; [by right|eauto].
    + split; [by intros [? ?]|]. intros [Hin| ->]; [|done].
      by apply elem_of_nil in Hin.
  - apply not_elem_of_cons in Hs as [Hx Hs].
    destruct (Ascii.eqb_spec x c) as [->|Hxc].
    + split; [intros _; left; by left|eauto].
    + destruct (Ascii.eqb_spec x NUL) as [->|_]; [done|].
      rewrite fmap_is_Some, IH by done. rewrite elem_of_cons.
      split; [intros [?|?]; eauto|intros [[?|?]|?]; eauto; congruence].
Qed.

(** X8. The ordinary characters are all characters except the eleven
    metacharacters [. ^ $ * ? + | ( ) [ {] and the terminating character of a
    string; so []], [}] and the backslash are ordinary. *)
Theorem ordinary_iff (c : ascii) :
  ordinary c = true <-> (c ∉ lit ".^$*?+|()[{") /\ c <> NUL.
Proof.
  unfold ordinary.
  assert (NUL ∉ metacharacters) as Hnul by compute_done.
  pose proof (strchr_is_Some metacharacters c Hnul) as Hiff.
  destruct (strchr metacharacters c) as [k|].
  - split; [done|]. intros [Hin Hc]. destruct (proj1 Hiff) as [?|?]; eauto.
  - split; [|done]. intros _.
    split; intros H; apply (is_Some_None (A := nat)); apply Hiff; eauto.
Qed.

Lemma morePatterns_false c :
  morePatterns c = false <-> c = NUL \/ c = "|"%char \/ c = ")"%char.
Proof.
  unfold morePatterns.
  destruct (Ascii.eqb_spec c NUL), (Ascii.eqb_spec c "|"),
    (Ascii.eqb_spec c ")"); simpl; split; intros H; try done; tauto.
Qed.

Lemma concatSymbols_cons p c cs :
  concatSymbols p (c :: cs)
  = concatSymbols (ConcatenationPattern p (SymbolPattern c)) cs.
Proof. done. Qed.

Lemma word_concatSymbols cs : forall p, word (concatSymbols p cs) = word p ++ cs.
Proof.
  induction cs as [|c cs IH]; intros p.
  - by rewrite app_nil_r.
  - rewrite concatSymbols_cons, IH. simpl. by rewrite <-app_assoc.
Qed.

(** The repetition level at an index inside the string. *)
Lemma parseRepetition_at str (k : nat) c :
  str !! k = Some c -> Z.of_nat k < INT_MAX ->
  parseRepetition str (Z.of_nat k)
  = if ordinary c then Return (SymbolPattern c, Z.of_nat (S k))
    else invalidPattern.
Proof.
  intros Hc Hmax. pose proof (take_drop_middle str k c Hc) as Hsplit.
  assert (length (take k str) = k) as Hk
    by (apply lookup_lt_Some in Hc; rewrite length_take; lia).
  destruct (ordinary c) eqn:Hord.
  - pose proof (parseRepetition_ordinary (take k str) c (drop (S k) str) Hord)
      as Hrep.
    rewrite Hsplit, Hk in Hrep. by apply Hrep.
  - pose proof (parseRepetition_special (take k str) c (drop (S k) str) Hord)
      as Hrep.
    by rewrite Hsplit, Hk in Hrep.
Qed.

(** What a loop that returns has read. *)
Lemma concatLoop_Return fuel : forall str p pos q pos',
  concatLoop fuel str p pos = Return (q, pos') ->
  0 <= pos /\
  exists cs,
    forallb ordinary cs = true /\
    q = concatSymbols p cs /\
    pos' = pos + Z.of_nat (length cs) /\
    take (length cs) (drop (Z.to_nat pos) str) = cs /\
    (Z.to_nat pos + length cs <= length str)%nat /\
    stopsConcatenation (drop (Z.to_nat pos + length cs) str).
Proof.
  assert (Hstop : forall str p pos c,
    0 <= pos -> char_at str (Z.to_nat pos) = Some c -> morePatterns c = false ->
    exists cs,
      forallb ordinary cs = true /\
      p = concatSymbols p cs /\
      pos = pos + Z.of_nat (length cs) /\
      take (length cs) (drop (Z.to_nat pos) str) = cs /\
      (Z.to_nat pos + length cs <= length str)%nat /\
      stopsConcatenation (drop (Z.to_nat pos + length cs) str)).
  { intros str p pos c Hpos Hc Hmore. exists []. cbn [length].
    rewrite Nat.add_0_r, Z.add_0_r. split_and!; try done.
    - unfold char_at in Hc. destruct (str !! Z.to_nat pos) eqn:Hk.
      + apply lookup_lt_Some in Hk. lia.
      + case_decide; [lia|done].
    - unfold char_at in Hc. destruct (str !! Z.to_nat pos) as [x|] eqn:Hk.
      + simplify_eq. rewrite (drop_S _ _ _ Hk). simpl.
        by apply morePatterns_false.
      + apply lookup_ge_None in Hk. by rewrite drop_ge. }
  induction fuel as [|fuel IH]; intros str p pos q pos'; cbn [concatLoop];
    unfold char_at_int; (destruct (decide (0 <= pos)) as [Hpos|]; [|done]);
    (destruct (char_at str (Z.to_nat pos)) as [c|] eqn:Hc; [|done]);
    cbn [defined mbind outcome_bind];
    (destruct (morePatterns c) eqn:Hmore;
      [|intros [= <- <-]; split; [done|]; by eapply Hstop]).
  - done.
  - destruct (parseRepetition str pos) as [[p2 pos2]| | |] eqn:Hrep; [|done..].
    cbn [mbind outcome_bind]. intros Hloop.
    apply parseRepetition_Return in Hrep as (x & Hx & Hord & -> & _ & ->).
    apply IH in Hloop as (_ & cs & Hcs & -> & -> & Htake & Hlen & Hrest).
    replace (Z.to_nat (pos + 1)) with (S (Z.to_nat pos)) in * by lia.
    split; [done|]. exists (x :: cs). cbn [length forallb].
    rewrite Hord, Hcs. split_and!.
    + done.
    + done.
    + lia.
    + rewrite (drop_S _ _ _ Hx). cbn [take]. by rewrite Htake.
    + lia.
    + by replace (Z.to_nat pos + S (length cs))%nat
        with (S (Z.to_nat pos) + length cs)%nat by lia.
Qed.

(** A successful parse has read a run of ordinary characters. *)
Lemma parseAlternation_inv str pos p pos' :
  parseAlternation str pos = Return (p, pos') ->
  exists pre c0 cs rest,
    str = pre ++ c0 :: cs ++ rest /\
    pos = Z.of_nat (length pre) /\
    ordinary c0 = true /\ forallb ordinary cs = true /\
    stopsConcatenation rest /\
    p = concatSymbols (SymbolPattern c0) cs /\
    word p = c0 :: cs /\
    pos' = pos + Z.of_nat (S (length cs)).
Proof.
  unfold parseAlternation, parseConcatenation.
  destruct (parseRepetition str pos) as [[p1 pos1]| | |] eqn:Hrep; [|done..].
  cbn [mbind outcome_bind].
  destruct (concatLoop (length str) str p1 pos1) as [[q pos2]| | |] eqn:Hloop;
    [|done..].
  cbn [mbind outcome_bind]. intros [= <- <-].
  apply parseRepetition_Return in Hrep as (c0 & Hc0 & Hord & -> & Hpos & ->).
  apply concatLoop_Return in Hloop as (_ & cs & Hcs & -> & -> & Htake & Hlen & Hrest).
  replace (Z.to_nat (pos + 1)) with (S (Z.to_nat pos)) in * by lia.
  exists (take (Z.to_nat pos) str), c0, cs,
         (drop (S (Z.to_nat pos) + length cs) str).
  split_and!; try done.
  - rewrite <-(take_drop (Z.to_nat pos) str) at 1. f_equal.
    rewrite (drop_S _ _ _ Hc0). f_equal.
    rewrite <-(take_drop (length cs) (drop (S (Z.to_nat pos)) str)) at 1.
    by rewrite Htake, drop_drop.
  - apply lookup_lt_Some in Hc0. rewrite length_take. lia.
  - by rewrite word_concatSymbols.
  - lia.
Qed.


(** X9. What the parser returns spells what it has read: a successful parse
    from [pos] has read a run [c0 cs] of ordinary characters that ends at the
    terminator, at ['|'] or at [')'], returns the left-nested concatenation
    of their symbols, whose word is the run, and leaves the cursor just after
    the run. *)
Theorem parseAlternation_Return str pos p pos' :
  parseAlternation str pos = Return (p, pos') ->
  exists pre c0 cs rest,
    str = pre ++ c0 :: cs ++ rest /\
    pos = Z.of_nat (length pre) /\
    ordinary c0 = true /\ forallb ordinary cs = true /\
    stopsConcatenation rest /\
    p = concatSymbols (SymbolPattern c0) cs /\
    word p = c0 :: cs /\
    pos' = pos + Z.of_nat (S (length cs)).
Proof. apply parseAlternation_inv. Qed.

Lemma parseAlternation_Return_witness :
  exists pre c0 cs rest,
    lit "(ab)x" = pre ++ c0 :: cs ++ rest /\
    1 = Z.of_nat (length pre) /\
    ordinary c0 = true /\ forallb ordinary cs = true /\
    stopsConcatenation rest /\
    ConcatenationPattern (SymbolPattern "a") (SymbolPattern "b")
    = concatSymbols (SymbolPattern c0) cs /\
    word (ConcatenationPattern (SymbolPattern "a") (SymbolPattern "b"))
    = c0 :: cs /\
    3 = 1 + Z.of_nat (S (length cs)).
Proof.
  apply (parseAlternation_Return (lit "(ab)x") 1
           (ConcatenationPattern (SymbolPattern "a") (SymbolPattern "b")) 3).
  reflexivity.
Defined.

(** A loop started inside the string, with fuel for the characters left,
    returns or rejects the pattern. *)
Lemma concatLoop_safe fuel : forall str p (k : nat),
  (k <= length str)%nat -> Z.of_nat (length str) <= INT_MAX ->
  (length str - k <= fuel)%nat ->
  concatLoop fuel str p (Z.of_nat k) = invalidPattern \/
  exists q pos', concatLoop fuel str p (Z.of_nat k) = Return (q, pos').
Proof.
  induction fuel as [|fuel IH]; intros str p k Hk Hmax Hfuel;
    cbn [concatLoop]; rewrite char_at_int_nat; unfold char_at;
    (destruct (str !! k) as [c|] eqn:Hc;
      [|rewrite decide_True by (apply lookup_ge_None in Hc; lia);
        cbn [defined mbind outcome_bind];
        replace (morePatterns NUL) with false by done; eauto]);
    cbn [defined mbind outcome_bind];
    (destruct (morePatterns c); [|eauto]);
    pose proof (lookup_lt_Some _ _ _ Hc).
  - lia.
  - rewrite (parseRepetition_at _ _ _ Hc) by lia.
    destruct (ordinary c); [|by left].
    cbn [mbind outcome_bind]. apply IH; lia.
Qed.

(** The parsing functions by themselves, from a cursor inside a string no
    longer than [INT_MAX], return a tree or reject the pattern. *)
Lemma parseAlternation_safe_tree str (k : nat) :
  (k <= length str)%nat -> Z.of_nat (length str) <= INT_MAX ->
  parseAlternation str (Z.of_nat k) = Exit invalidPatternMessage \/
  exists p pos', parseAlternation str (Z.of_nat k) = Return (p, pos').
Proof.
  intros Hk Hmax. unfold parseAlternation, parseConcatenation.
  destruct (str !! k) as [c|] eqn:Hc.
  - pose proof (lookup_lt_Some _ _ _ Hc).
    rewrite (parseRepetition_at _ _ _ Hc) by lia.
    destruct (ordinary c); [|by left]. cbn [mbind outcome_bind].
    destruct (concatLoop_safe (length str) str (SymbolPattern c) (S k))
      as [->|(q & pos' & ->)]; [lia..| |]; [by left|].
    right. by eexists _, _.
  - left. apply lookup_ge_None in Hc. assert (k = length str) as -> by lia.
    unfold parseRepetition, parseAtomicPattern.
    rewrite char_at_int_nat, char_at_end. done.
Qed.

(** X11. None of the operators is implemented: a pattern in which a run of
    ordinary characters is followed by one of [. ^ $ * ? + ( [ {] is
    rejected as invalid, so ["a*"], ["a+"], ["a?"] and ["a(b)"] are. *)
Theorem metacharacter_after_run_invalid (c0 : ascii) cs (c : ascii) rest :
  ordinary c0 = true -> forallb ordinary cs = true ->
  c ∈ lit ".^$*?+([{" ->
  Z.of_nat (length (c0 :: cs ++ c :: rest)) <= INT_MAX ->
  parseAlternation (c0 :: cs ++ c :: rest) 0 = Exit invalidPatternMessage.
Proof.
  intros Hc0 Hcs Hc Hmax. unfold parseAlternation.
  assert (ordinary c = false /\ morePatterns c = true) as [Hord Hmore].
  { simpl in Hc. rewrite !elem_of_cons, elem_of_nil in Hc.
    destruct Hc as [->|[->|[->|[->|[->|[->|[->|[->|[->|[]]]]]]]]]]; done. }
  by rewrite (parseConcatenation_special [] c0 cs c rest Hc0 Hcs Hord Hmore Hmax
              : parseConcatenation (c0 :: cs ++ c :: rest) 0 = invalidPattern).
Qed.

Lemma metacharacter_after_run_invalid_witness :
  parseAlternation ("a"%char :: lit "b" ++ "*"%char :: lit "c") 0
  = Exit invalidPatternMessage.
Proof.
  apply (metacharacter_after_run_invalid "a" (lit "b") "*" (lit "c"));
    [reflexivity | reflexivity | compute_done | vm_compute; discriminate].
Defined.

End ParserExtras.

(** ** Searching a line for a word *)

Section Grep.
Implicit Types (str cs : list ascii).

(** The concatenation level on a pattern made of ordinary characters only. *)
Lemma parseAlternation_word (c0 : ascii) cs :
  ordinary c0 = true -> forallb ordinary cs = true ->
  Z.of_nat (length (c0 :: cs)) <= INT_MAX ->
  parseAlternation (c0 :: cs) 0
  = Return (concatSymbols (SymbolPattern c0) cs, Z.of_nat (S (length cs))).
Proof.
  intros Hc0 Hcs Hmax. cbn [length] in Hmax.
  unfold parseAlternation, parseConcatenation.
  rewrite (parseRepetition_ordinary [] c0 cs Hc0
           : _ -> parseRepetition (c0 :: cs) 0 = _) by (simpl; lia).
  cbn [mbind outcome_bind].
  pose proof (concatLoop_symbols cs [c0] (SymbolPattern c0)
                (length (c0 :: cs)) [] Hcs I) as Hloop.
  rewrite app_nil_r in Hloop. cbn [app length] in Hloop |- *.
  rewrite Hloop by lia. cbn [mbind outcome_bind]. do 2 f_equal.
Qed.

(** X12. Searching for a word: for a pattern made of ordinary characters
    only, the tree the parser builds, matched against a line from all-true
    marks, marks exactly the positions where an occurrence of the pattern
    ends. *)
Theorem grep_word (c0 : ascii) cs str :
  ordinary c0 = true -> forallb ordinary cs = true ->
  Z.of_nat (length (c0 :: cs)) <= INT_MAX ->
  Z.of_nat (length str) < INT_MAX ->
  exists (p : Pattern) (after : list bool),
    parseAlternation (c0 :: cs) 0 = Return (p, Z.of_nat (length (c0 :: cs))) /\
    pmatch p (Z.of_nat (length str)) str (allTrue (S (length str)))
           (replicate (S (length str)) None)
    = Some (Some <$> after) /\
    forall i, (i <= length str)%nat ->
      after !! i = Some true <->
      (length (c0 :: cs) <= i)%nat /\
      span (i - length (c0 :: cs)) i str = c0 :: cs.
Proof.
  intros Hc0 Hcs Hmax Hstr.
  exists (concatSymbols (SymbolPattern c0) cs),
         (marksAfter (concatSymbols (SymbolPattern c0) cs) str
                     (replicate (S (length str)) true)).
  split_and!.
  - by apply parseAlternation_word.
  - unfold allTrue. rewrite <-(fmap_replicate Some).
    apply pmatch_marksAfter; by rewrite ?length_replicate.
  - intros i Hi. rewrite marksAfter_word by by rewrite ?length_replicate.
    rewrite word_concatSymbols. cbn [word app].
    rewrite lookup_replicate_2 by lia. tauto.
Qed.

Lemma grep_word_witness :
  exists (p : Pattern) (after : list bool),
    parseAlternation ("b"%char :: lit "c") 0
    = Return (p, Z.of_nat (length ("b"%char :: lit "c"))) /\
    pmatch p (Z.of_nat (length (lit "abcbcdbcb"))) (lit "abcbcdbcb")
           (allTrue (S (length (lit "abcbcdbcb"))))
           (replicate (S (length (lit "abcbcdbcb"))) None)
    = Some (Some <$> after) /\
    forall i, (i <= length (lit "abcbcdbcb"))%nat ->
      after !! i = Some true <->
      (length ("b"%char :: lit "c") <= i)%nat /\
      span (i - length ("b"%char :: lit "c")) i (lit "abcbcdbcb")
      = "b"%char :: lit "c".
Proof.
  apply (grep_word "b" (lit "c") (lit "abcbcdbcb"));
    [reflexivity | reflexivity | vm_compute; discriminate
    | vm_compute; reflexivity].
Defined.

End Grep.

(** ** What [main] does with its command line *)

Section MainOutcomes.
Variable DICT_POS : Z.
Variable can_open : list ascii -> bool.
Implicit Types (argv : list (list ascii)) (pattern : list ascii).



End MainOutcomes.

(** ** Pattern objects on the heap *)

Section HeapObjects.
Implicit Types (t : Pattern) (pat : nat) (h ht hf : HeapC.heap).

Local Abbreviation symbolObject c :=
  (HeapC.SymbolObject HeapC.matchSymbolPatternFn HeapC.destroySimplePatternFn c).
Local Abbreviation binaryObject p1 p2 :=
  (HeapC.BinaryObject HeapC.matchConcatenationPatternFn
                      HeapC.destroyBinaryPatternFn p1 p2).

Lemma represents_root t pat ht :
  represents t pat ht -> is_Some (ht !! pat).
Proof.
  destruct t as [c|t1 t2]; simpl.
  - intros ->. by rewrite lookup_singleton_eq.
  - intros (p1 & p2 & h1 & h2 & _ & _ & _ & _ & _ & ->).
    by rewrite lookup_insert_eq.
Qed.

(** The frame rule of [destroy]: the nodes of the tree go, the rest of the
    heap stays. *)
Lemma destroy_frame t : forall pat ht hf fuel,
  represents t pat ht -> ht ##ₘ hf -> (height t <= fuel)%nat ->
  HeapC.destroy fuel (ht ∪ hf) pat = Return hf.
Proof.
  induction t as [c|t1 IH1 t2 IH2]; intros pat ht hf fuel Hrep Hdisj Hfuel;
    (destruct fuel as [|fuel]; [simpl in Hfuel; lia|]); cbn [HeapC.destroy].
  - simpl in Hrep. subst ht.
    apply map_disjoint_singleton_l in Hdisj.
    rewrite (lookup_union_Some_l _ _ _ _ (lookup_singleton_eq _ _)).
    cbn [defined mbind outcome_bind HeapC.destroy_of]. unfold HeapC.free.
    rewrite (lookup_union_Some_l _ _ _ _ (lookup_singleton_eq _ _)).
    by rewrite delete_union, delete_singleton_eq, delete_id, (left_id_L ∅ (∪)).
  - simpl in Hrep, Hfuel.
    destruct Hrep as (p1 & p2 & h1 & h2 & Hr1 & Hr2 & H12 & Hp1 & Hp2 & ->).
    apply map_disjoint_insert_l in Hdisj as [Hpf Hdisj].
    apply map_disjoint_union_l in Hdisj as [H1f H2f].
    assert (Hroot : forall m, (<[pat:=binaryObject p1 p2]> (h1 ∪ h2) ∪ m) !! pat
                              = Some (binaryObject p1 p2))
      by (intros m; apply lookup_union_Some_l, lookup_insert_eq).
    rewrite Hroot. cbn [defined mbind outcome_bind HeapC.destroy_of].
    unfold HeapC.p1_of at 1. rewrite Hroot. cbn [mbind outcome_bind].
    (* the first sub-pattern *)
    replace (<[pat:=binaryObject p1 p2]> (h1 ∪ h2) ∪ hf)
      with (h1 ∪ (<[pat:=binaryObject p1 p2]> h2 ∪ hf))
      by (by rewrite (assoc_L (∪)), <-insert_union_r).
    rewrite (IH1 p1 h1 (<[pat:=binaryObject p1 p2]> h2 ∪ hf) fuel Hr1); [|
      apply map_disjoint_union_r; split;
        [by apply map_disjoint_insert_r_2|done] | lia].
    cbn [mbind outcome_bind]. unfold HeapC.p2_of.
    rewrite (lookup_union_Some_l _ _ _ _ (lookup_insert_eq _ _ _)).
    cbn [mbind outcome_bind].
    (* the second sub-pattern *)
    replace (<[pat:=binaryObject p1 p2]> h2 ∪ hf)
      with (h2 ∪ <[pat:=binaryObject p1 p2]> hf)
      by (by rewrite <-insert_union_l, insert_union_r).
    rewrite (IH2 p2 h2 (<[pat:=binaryObject p1 p2]> hf) fuel Hr2);
      [|by apply map_disjoint_insert_r_2|lia].
    cbn [mbind outcome_bind]. unfold HeapC.free.
    rewrite lookup_insert_eq. by rewrite delete_insert_id.
Qed.

(** X14. Destroying a tree frees exactly its nodes, each once: the call is
    defined and leaves the heap as it was without the tree; the pointer is
    dangling afterwards, and a second call through it is undefined. *)
Theorem destroy_frees_tree t pat ht hf (fuel fuel' : nat) :
  represents t pat ht -> ht ##ₘ hf -> (height t <= fuel)%nat ->
  HeapC.destroy fuel (ht ∪ hf) pat = Return hf /\
  HeapC.destroy (S fuel') hf pat = Undefined.
Proof.
  intros Hrep Hdisj Hfuel. split; [by apply (destroy_frame t)|].
  destruct (represents_root t pat ht Hrep) as [o Ho].
  cbn [HeapC.destroy]. by rewrite (map_disjoint_Some_l _ _ _ _ Hdisj Ho).
Qed.

Lemma destroy_frees_tree_witness :
  HeapC.destroy 2
    (<[3%nat := binaryObject 1 2]>
       ({[1%nat := symbolObject "b"]} ∪ {[2%nat := symbolObject "c"]})
     ∪ {[7%nat := symbolObject "x"]}) 3
  = Return {[7%nat := symbolObject "x"]} /\
  HeapC.destroy 1 {[7%nat := symbolObject "x"]} 3 = Undefined.
Proof.
  apply (destroy_frees_tree
           (ConcatenationPattern (SymbolPattern "b") (SymbolPattern "c")) 3
           (<[3%nat := binaryObject 1 2]>
              ({[1%nat := symbolObject "b"]} ∪ {[2%nat := symbolObject "c"]}))
           {[7%nat := symbolObject "x"]} 2 0).
  - exists 1%nat, 2%nat, {[1%nat := symbolObject "b"]},
           {[2%nat := symbolObject "c"]}.
    split_and!; try reflexivity. by apply map_disjoint_singleton_l.
  - apply map_disjoint_singleton_r. reflexivity.
  - simpl. lia.
Defined.

(** The sub-trees of a tree on the heap lie in the heap of the tree. *)
Lemma represents_subtrees p1 p2 h1 h2 pat :
  h1 ##ₘ h2 -> h1 !! pat = None -> h2 !! pat = None ->
  h1 ⊆ <[pat := binaryObject p1 p2]> (h1 ∪ h2) /\
  h2 ⊆ <[pat := binaryObject p1 p2]> (h1 ∪ h2).
Proof.
  intros H12 Hp1 Hp2.
  assert ((h1 ∪ h2) !! pat = None) as Hp by (by apply lookup_union_None).
  split; (etrans; [|by apply insert_subseteq]).
  - apply map_union_subseteq_l.
  - by apply map_union_subseteq_r.
Qed.

(** Dispatch through the [match] field follows the tree. *)
Lemma hmatch_tree t : forall pat ht h (fuel : nat) (len : Z)
    (str : list ascii) (before after : list cell),
  represents t pat ht -> ht ⊆ h -> (height t <= fuel)%nat ->
  HeapC.hmatch fuel h pat len str before after
  = defined (pmatch t len str before after).
Proof.
  induction t as [c|t1 IH1 t2 IH2];
    intros pat ht h fuel len str before after Hrep Hsub Hfuel;
    (destruct fuel as [|fuel]; [simpl in Hfuel; lia|]);
    cbn [HeapC.hmatch pmatch].
  - simpl in Hrep. subst ht.
    pose proof (lookup_weaken _ _ _ _ (lookup_singleton_eq _ _) Hsub) as Hroot.
    unfold HeapC.sym_of. rewrite Hroot. done.
  - simpl in Hrep, Hfuel.
    destruct Hrep as (p1 & p2 & h1 & h2 & Hr1 & Hr2 & H12 & Hp1 & Hp2 & ->).
    pose proof (lookup_weaken _ _ _ _ (lookup_insert_eq _ _ _) Hsub) as Hroot.
    destruct (represents_subtrees p1 p2 h1 h2 pat H12 Hp1 Hp2) as [Hs1 Hs2].
    unfold HeapC.p1_of, HeapC.p2_of. rewrite Hroot.
    cbn [defined mbind outcome_bind HeapC.match_of].
    case_decide; [|done].
    destruct (alloca (len + 1)) as [mid|]; [|done].
    cbn [defined mbind outcome_bind option_bind].
    rewrite (IH1 p1 h1 h fuel); [|done|by etrans|lia].
    destruct (pmatch t1 len str before mid) as [mid'|]; [|done].
    cbn [defined mbind outcome_bind option_bind].
    apply (IH2 p2 h2 h fuel); [done|by etrans|lia].
Qed.


(** X15. The call through the [match] field of an object that is the root of
    a tree on the heap does what the matcher of that tree does, and leaves
    the heap alone. *)
Theorem hmatch_represents t : forall pat ht h (fuel : nat) (len : Z)
    (str : list ascii) (before after : list cell),
  represents t pat ht -> ht ⊆ h -> (height t <= fuel)%nat ->
  HeapC.hmatch fuel h pat len str before after
  = defined (pmatch t len str before after).
Proof. apply hmatch_tree. Qed.

Lemma hmatch_represents_witness :
  HeapC.hmatch 2
    (<[3%nat := binaryObject 1 2]>
       ({[1%nat := symbolObject "b"]} ∪ {[2%nat := symbolObject "c"]})) 3
    3 (lit "abc") (allTrue 4) (replicate 4 None)
  = defined (pmatch (ConcatenationPattern (SymbolPattern "b") (SymbolPattern "c"))
                    3 (lit "abc") (allTrue 4) (replicate 4 None)).
Proof.
  apply (hmatch_represents
           (ConcatenationPattern (SymbolPattern "b") (SymbolPattern "c")) 3
           (<[3%nat := binaryObject 1 2]>
              ({[1%nat := symbolObject "b"]} ∪ {[2%nat := symbolObject "c"]}))).
  - exists 1%nat, 2%nat, {[1%nat := symbolObject "b"]},
           {[2%nat := symbolObject "c"]}.
    split_and!; try reflexivity. by apply map_disjoint_singleton_l.
  - reflexivity.
  - simpl. lia.
Defined.

End HeapObjects.

(** ** The parser on the heap *)

Section HeapParser.
Variable malloc : HeapC.heap -> option nat.
(** [malloc] never returns the address of an object that is still
    allocated. *)
Hypothesis malloc_fresh : forall h a, malloc h = Some a -> h !! a = None.
Implicit Types (str : list ascii) (pos : Z) (h ht hf : HeapC.heap) (t : Pattern).

Local Abbreviation symbolObject c :=
  (HeapC.SymbolObject HeapC.matchSymbolPatternFn HeapC.destroySimplePatternFn c).
Local Abbreviation binaryObject p1 p2 :=
  (HeapC.BinaryObject HeapC.matchConcatenationPatternFn
                      HeapC.destroyBinaryPatternFn p1 p2).

Lemma makeSymbolPattern_Return c h pat h' :
  HeapC.makeSymbolPattern malloc c h = Return (pat, h') ->
  h !! pat = None /\ h' = <[pat := symbolObject c]> h.
Proof.
  unfold HeapC.makeSymbolPattern.
  destruct (malloc h) as [a|] eqn:Ha; [|done].
  cbn [defined mbind outcome_bind]. intros [= <- <-]. eauto.
Qed.

Lemma makeConcatenationPattern_Return p1 p2 h pat h' :
  HeapC.makeConcatenationPattern malloc p1 p2 h = Return (pat, h') ->
  h !! pat = None /\ h' = <[pat := binaryObject p1 p2]> h.
Proof.
  unfold HeapC.makeConcatenationPattern.
  destruct (malloc h) as [a|] eqn:Ha; [|done].
  cbn [defined mbind outcome_bind]. intros [= <- <-]. eauto.
Qed.

(** The repetition level allocates one Symbol object for the character the
    tree-level function reads. *)
Lemma heap_parseRepetition_Return str pos h p pos' h' :
  HeapC.parseRepetition malloc str pos h = Return (p, pos', h') ->
  exists c, parseRepetition str pos = Return (SymbolPattern c, pos') /\
            h !! p = None /\ h' = <[p := symbolObject c]> h.
Proof.
  unfold HeapC.parseRepetition, HeapC.parseAtomicPattern,
    parseRepetition, parseAtomicPattern.
  destruct (char_at_int str pos) as [c| | |]; [|done..].
  cbn [mbind outcome_bind]. destruct (ordinary c); [|done].
  destruct (int_succ pos) as [pos1| | |]; [|done..].
  cbn [mbind outcome_bind].
  destruct (HeapC.makeSymbolPattern malloc c h) as [[a h1]| | |] eqn:Hmake;
    [|done..].
  cbn [mbind outcome_bind]. intros [= <- <- <-].
  apply makeSymbolPattern_Return in Hmake as [Ha ->]. eauto.
Qed.

(** One turn of the loop: a Symbol object, then a Binary object over the
    tree so far. *)
Lemma represents_step t1 p1 ht1 hf c p2 pat :
  represents t1 p1 ht1 -> ht1 ##ₘ hf ->
  (ht1 ∪ hf) !! p2 = None ->
  (<[p2 := symbolObject c]> (ht1 ∪ hf)) !! pat = None ->
  exists ht,
    represents (ConcatenationPattern t1 (SymbolPattern c)) pat ht /\
    ht ##ₘ hf /\
    <[pat := binaryObject p1 p2]> (<[p2 := symbolObject c]> (ht1 ∪ hf))
    = ht ∪ hf.
Proof.
  intros Hrep Hdisj Hp2 Hpat.
  apply lookup_union_None in Hp2 as [Hp2t Hp2f].
  apply lookup_insert_None in Hpat as [Hpat Hne].
  apply lookup_union_None in Hpat as [Hpatt Hpatf].
  exists (<[pat := binaryObject p1 p2]> (ht1 ∪ {[p2 := symbolObject c]})).
  split_and!.
  - exists p1, p2, ht1, {[p2 := symbolObject c]}.
    split_and!; try done.
    + by apply map_disjoint_singleton_r.
    + by apply lookup_singleton_ne.
  - apply map_disjoint_insert_l_2; [done|].
    apply map_disjoint_union_l. split; [done|].
    by apply map_disjoint_singleton_l.
  - rewrite <-insert_union_l. f_equal.
    rewrite insert_union_r by done.
    rewrite <-(assoc_L (∪)). f_equal.
    by rewrite insert_union_singleton_l.
Qed.

Lemma heap_concatLoop_Return str fuel : forall t1 p1 ht1 hf pos q pos' h',
  represents t1 p1 ht1 -> ht1 ##ₘ hf ->
  HeapC.concatLoop malloc fuel str p1 pos (ht1 ∪ hf) = Return (q, pos', h') ->
  exists t ht,
    concatLoop fuel str t1 pos = Return (t, pos') /\
    represents t q ht /\ ht ##ₘ hf /\ h' = ht ∪ hf.
Proof.
  induction fuel as [|fuel IH]; intros t1 p1 ht1 hf pos q pos' h' Hrep Hdisj;
    cbn [HeapC.concatLoop concatLoop];
    (destruct (char_at_int str pos) as [c| | |]; [|done..]);
    cbn [mbind outcome_bind];
    (destruct (morePatterns c); [|intros [= <- <- <-]; by exists t1, ht1]).
  - done.
  - destruct (HeapC.parseRepetition malloc str pos (ht1 ∪ hf))
      as [[[p2 pos2] h2]| | |] eqn:Hrep2; [|done..].
    cbn [mbind outcome_bind].
    apply heap_parseRepetition_Return in Hrep2 as (x & -> & Hp2 & ->).
    cbn [mbind outcome_bind].
    destruct (HeapC.makeConcatenationPattern malloc p1 p2 _)
      as [[p1' h3]| | |] eqn:Hmake; [|done..].
    cbn [mbind outcome_bind].
    apply makeConcatenationPattern_Return in Hmake as [Hp1' ->].
    destruct (represents_step t1 p1 ht1 hf x p2 p1' Hrep Hdisj Hp2 Hp1')
      as (ht & Hrep' & Hdisj' & ->).
    apply IH; done.
Qed.

(** The parser on the heap builds, in memory that was free, the tree the
    tree-level parser returns. *)
Lemma heap_parseAlternation_inv str pos h pat pos' h' :
  HeapC.parseAlternation malloc str pos h = Return (pat, pos', h') ->
  exists t ht,
    parseAlternation str pos = Return (t, pos') /\
    represents t pat ht /\ ht ##ₘ h /\ h' = ht ∪ h.
Proof.
  unfold HeapC.parseAlternation, HeapC.parseConcatenation,
    parseAlternation, parseConcatenation.
  destruct (HeapC.parseRepetition malloc str pos h)
    as [[[p1 pos1] h1]| | |] eqn:Hrep1; [|done..].
  cbn [mbind outcome_bind].
  apply heap_parseRepetition_Return in Hrep1 as (c & -> & Hp1 & ->).
  cbn [mbind outcome_bind].
  rewrite insert_union_singleton_l.
  destruct (HeapC.concatLoop malloc (length str) str p1 pos1 _)
    as [[[q pos2] h2]| | |] eqn:Hloop; [|done..].
  cbn [mbind outcome_bind]. intros [= <- <- <-].
  apply (heap_concatLoop_Return str _ (SymbolPattern c)) in Hloop
    as (t & ht & -> & Hrep & Hdisj & ->);
    [|done|by apply map_disjoint_singleton_l].
  cbn [mbind outcome_bind]. by exists t, ht.
Qed.

Lemma height_concatSymbols cs : forall t,
  (1 <= height t)%nat -> height (concatSymbols t cs) = (height t + length cs)%nat.
Proof.
  induction cs as [|c cs IH]; intros t Ht; cbn [length].
  - simpl. lia.
  - rewrite concatSymbols_cons, IH; simpl; lia.
Qed.

(** X16. The parser builds its tree in fresh memory: when parsing on the
    heap returns, the new objects are exactly the nodes of the tree the
    parser describes, rooted at the pointer returned, and the objects that
    were allocated before are untouched. *)
Theorem heap_parseAlternation_represents str pos h pat pos' h' :
  HeapC.parseAlternation malloc str pos h = Return (pat, pos', h') ->
  exists t ht,
    parseAlternation str pos = Return (t, pos') /\
    represents t pat ht /\ ht ##ₘ h /\ h' = ht ∪ h.
Proof. apply heap_parseAlternation_inv. Qed.

(** X17. Parsing and then destroying leaks nothing: [pat->destroy( pat )]
    on the pointer the parser returned is defined and gives back the heap as
    it was before the parse. *)
Theorem parse_destroy_roundtrip str pos h pat pos' h' (fuel : nat) :
  HeapC.parseAlternation malloc str pos h = Return (pat, pos', h') ->
  (length str <= fuel)%nat ->
  HeapC.destroy fuel h' pat = Return h.
Proof.
  intros Hparse Hfuel.
  apply heap_parseAlternation_inv in Hparse as (t & ht & Htree & Hrep & Hdisj & ->).
  apply (destroy_frame t); [done..|].
  apply parseAlternation_inv in Htree
    as (pre & c0 & cs & rest & -> & _ & _ & _ & _ & -> & _ & _).
  rewrite height_concatSymbols by (simpl; lia).
  rewrite !length_app in Hfuel. cbn [length] in Hfuel.
  rewrite length_app in Hfuel. simpl. lia.
Qed.

End HeapParser.

Section HeapParserWitnesses.

Local Abbreviation symbolObject c :=
  (HeapC.SymbolObject HeapC.matchSymbolPatternFn HeapC.destroySimplePatternFn c).
Local Abbreviation binaryObject p1 p2 :=
  (HeapC.BinaryObject HeapC.matchConcatenationPatternFn
                      HeapC.destroyBinaryPatternFn p1 p2).

Lemma firstFree_fresh (h : HeapC.heap) a : firstFree h = Some a -> h !! a = None.
Proof. intros [= <-]. apply not_elem_of_dom, is_fresh. Qed.

Lemma heap_parseAlternation_represents_witness :
  exists t ht,
    parseAlternation (lit "bc") 0 = Return (t, 2) /\
    represents t 3 ht /\ ht ##ₘ {[0%nat := symbolObject "x"]} /\
    <[3%nat := binaryObject 1 2]>
      (<[2%nat := symbolObject "c"]>
         (<[1%nat := symbolObject "b"]> {[0%nat := symbolObject "x"]}))
    = ht ∪ {[0%nat := symbolObject "x"]}.
Proof.
  apply (heap_parseAlternation_represents firstFree firstFree_fresh
           (lit "bc") 0 {[0%nat := symbolObject "x"]} 3 2).
  vm_compute. reflexivity.
Defined.

Lemma parse_destroy_roundtrip_witness :
  HeapC.destroy 2
    (<[3%nat := binaryObject 1 2]>
       (<[2%nat := symbolObject "c"]>
          (<[1%nat := symbolObject "b"]> {[0%nat := symbolObject "x"]}))) 3
  = Return {[0%nat := symbolObject "x"]}.
Proof.
  apply (parse_destroy_roundtrip firstFree firstFree_fresh
           (lit "bc") 0 {[0%nat := symbolObject "x"]} 3 2 _ 2);
    [vm_compute; reflexivity | simpl; lia].
Defined.

End HeapParserWitnesses.

(** ** The bracket count of [main] *)

Section BracketCount.

Lemma bracketNet_Permutation (s1 s2 : list ascii) :
  s1 ≡ₚ s2 -> bracketNet s1 = bracketNet s2.
Proof.
  intros Hperm. unfold bracketNet, countOf. by rewrite Hperm.
Qed.

(** X18. The bracket count of [main] is a net count and does not look at
    the order of the brackets: two patterns with the same characters in any
    order get the same count, so a pattern such as [")("] passes. *)
Theorem bracketLoop_Permutation (s1 s2 : list ascii) :
  s1 ≡ₚ s2 -> Z.of_nat (length s1) <= INT_MAX ->
  bracketLoop s1 0 0 = bracketLoop s2 0 0 /\
  bracketLoop s1 0 0 = Return (bracketNet s1).
Proof.
  intros Hperm Hmax.
  rewrite !bracketLoop_bracketNet by (rewrite <-?Hperm; lia).
  rewrite !Z.add_0_l. by rewrite (bracketNet_Permutation s1 s2).
Qed.

Lemma bracketLoop_Permutation_witness :
  bracketLoop (lit "(a)") 0 0 = bracketLoop (lit ")a(") 0 0 /\
  bracketLoop (lit "(a)") 0 0 = Return (bracketNet (lit "(a)")).
Proof.
  apply (bracketLoop_Permutation (lit "(a)") (lit ")a("));
    [|vm_compute; discriminate].
  exact (Permutation_rev (lit "(a)")).
Defined.

End BracketCount.

(** ** What the parser leaves unread *)

Section Unread.
Implicit Types (cs rest : list ascii).

(** X19. Alternation and grouping are not implemented: the parser stops at
    the first ['|'] or [')'] after a run of ordinary characters and returns
    what it would return for the run alone, whatever follows. *)
Theorem text_after_stop_unread (c0 : ascii) cs (c : ascii) rest :
  ordinary c0 = true -> forallb ordinary cs = true ->
  c = "|"%char \/ c = ")"%char ->
  Z.of_nat (length (c0 :: cs ++ c :: rest)) <= INT_MAX ->
  parseAlternation (c0 :: cs ++ c :: rest) 0 = parseAlternation (c0 :: cs) 0 /\
  parseAlternation (c0 :: cs ++ c :: rest) 0
  = Return (concatSymbols (SymbolPattern c0) cs, Z.of_nat (length (c0 :: cs))).
Proof.
  intros Hc0 Hcs Hc Hmax.
  assert (Z.of_nat (length (c0 :: cs)) <= INT_MAX) as Hmax'
    by (cbn [length] in *; rewrite length_app in Hmax; lia).
  rewrite (parseAlternation_word c0 cs Hc0 Hcs Hmax').
  assert (parseAlternation (c0 :: cs ++ c :: rest) 0
          = Return (concatSymbols (SymbolPattern c0) cs,
                    Z.of_nat (length (c0 :: cs)))) as ->; [|done].
  unfold parseAlternation, parseConcatenation.
  rewrite (parseRepetition_ordinary [] c0 (cs ++ c :: rest) Hc0
           : _ -> parseRepetition (c0 :: cs ++ c :: rest) 0 = _)
    by (cbn [length] in *; lia).
  cbn [mbind outcome_bind].
  pose proof (concatLoop_symbols cs [c0] (SymbolPattern c0)
                (length (c0 :: cs ++ c :: rest)) (c :: rest) Hcs) as Hloop.
  cbn [app length] in Hloop |- *. rewrite Hloop.
  - cbn [mbind outcome_bind]. do 2 f_equal.
  - simpl. tauto.
  - rewrite length_app. lia.
  - done.
Qed.

Lemma text_after_stop_unread_witness :
  parseAlternation ("a"%char :: lit "b" ++ "|"%char :: lit "c*") 0
  = parseAlternation ("a"%char :: lit "b") 0 /\
  parseAlternation ("a"%char :: lit "b" ++ "|"%char :: lit "c*") 0
  = Return (concatSymbols (SymbolPattern "a") (lit "b"),
            Z.of_nat (length ("a"%char :: lit "b"))).
Proof.
  apply (text_after_stop_unread "a" (lit "b") "|" (lit "c*"));
    [reflexivity | reflexivity | left; reflexivity | vm_compute; discriminate].
Defined.

End Unread.

(** ** Sharing a sub-pattern *)

Section Sharing.
Implicit Types (t : Pattern) (pat p : nat) (ht hf : HeapC.heap).

Local Abbreviation binaryObject p1 p2 :=
  (HeapC.BinaryObject HeapC.matchConcatenationPatternFn
                      HeapC.destroyBinaryPatternFn p1 p2).

Lemma destroy_unfold (fuel : nat) (h : HeapC.heap) pat :
  HeapC.destroy (S fuel) h pat
  = (o ← defined (h !! pat);
     match HeapC.destroy_of o with
     | HeapC.destroySimplePatternFn => HeapC.free h pat
     | HeapC.destroyBinaryPatternFn =>
         p1 ← HeapC.p1_of h pat;
         h1 ← HeapC.destroy fuel h p1;
         p2 ← HeapC.p2_of h1 pat;
         h2 ← HeapC.destroy fuel h1 p2;
         HeapC.free h2 pat
     end).
Proof. done. Qed.

(** X20. A sub-pattern must not have two owners: destroying a concatenation
    whose two sub-patterns are the same object frees that object through
    [p1] and then has undefined behaviour when it goes through [p2]. *)
Theorem destroy_shared_undefined t p ht hf pat (fuel : nat) :
  represents t p ht -> ht ##ₘ hf ->
  ht !! pat = None -> hf !! pat = None ->
  (height t <= fuel)%nat ->
  HeapC.destroy (S (S fuel)) (<[pat := binaryObject p p]> (ht ∪ hf)) pat
  = Undefined.
Proof.
  intros Hrep Hdisj Hpt Hpf Hfuel.
  destruct (represents_root t p ht Hrep) as [o Ho].
  assert (p <> pat) as Hne by congruence.
  rewrite (destroy_unfold (S fuel)), lookup_insert_eq.
  cbn [defined mbind outcome_bind HeapC.destroy_of].
  unfold HeapC.p1_of. rewrite lookup_insert_eq. cbn [mbind outcome_bind].
  rewrite insert_union_r by done.
  rewrite (destroy_frame t p ht (<[pat := binaryObject p p]> hf) (S fuel) Hrep);
    [|by apply map_disjoint_insert_r_2|lia].
  cbn [mbind outcome_bind]. unfold HeapC.p2_of. rewrite lookup_insert_eq.
  cbn [mbind outcome_bind].
  rewrite destroy_unfold, lookup_insert_ne by done.
  by rewrite (map_disjoint_Some_l _ _ _ _ Hdisj Ho).
Qed.

Lemma destroy_shared_undefined_witness :
  HeapC.destroy 3
    (<[5%nat := binaryObject 1 1]>
       ({[1%nat := HeapC.SymbolObject HeapC.matchSymbolPatternFn
                     HeapC.destroySimplePatternFn "b"]} ∪ ∅)) 5
  = Undefined.
Proof.
  apply (destroy_shared_undefined (SymbolPattern "b") 1
           {[1%nat := HeapC.SymbolObject HeapC.matchSymbolPatternFn
                        HeapC.destroySimplePatternFn "b"]} ∅ 5 1);
    [reflexivity | apply map_disjoint_empty_r | reflexivity | reflexivity
    | simpl; lia].
Defined.

End Sharing.

(** ** The program with its allocations *)

Section HeapRun.
Variable malloc : HeapC.heap -> option nat.
(** [malloc] never fails and never returns the address of an object that is
    still allocated. *)
Hypothesis malloc_total : forall h, is_Some (malloc h).
Hypothesis malloc_fresh : forall h a, malloc h = Some a -> h !! a = None.
Implicit Types (str : list ascii) (pos : Z) (h ht hf : HeapC.heap) (t : Pattern).

Local Abbreviation symbolObject c :=
  (HeapC.SymbolObject HeapC.matchSymbolPatternFn HeapC.destroySimplePatternFn c).
Local Abbreviation binaryObject p1 p2 :=
  (HeapC.BinaryObject HeapC.matchConcatenationPatternFn
                      HeapC.destroyBinaryPatternFn p1 p2).

Lemma heap_parseRepetition_follows str pos h :
  match parseRepetition str pos with
  | Return (t, pos') =>
      exists c p, t = SymbolPattern c /\ h !! p = None /\
        HeapC.parseRepetition malloc str pos h
        = Return (p, pos', <[p := symbolObject c]> h)
  | Exit err => HeapC.parseRepetition malloc str pos h = Exit err
  | Undefined => HeapC.parseRepetition malloc str pos h = Undefined
  | OutOfFuel => HeapC.parseRepetition malloc str pos h = OutOfFuel
  end.
Proof.
  unfold HeapC.parseRepetition, HeapC.parseAtomicPattern,
    parseRepetition, parseAtomicPattern, HeapC.makeSymbolPattern.
  destruct (char_at_int str pos) as [c| | |]; [|done..].
  cbn [mbind outcome_bind]. destruct (ordinary c); [|done].
  destruct (int_succ pos) as [pos1| | |]; [|done..].
  cbn [mbind outcome_bind].
  destruct (malloc_total h) as [a Ha]. rewrite Ha.
  cbn [defined mbind outcome_bind]. exists c, a. eauto.
Qed.

Lemma heap_concatLoop_follows str fuel : forall t1 p1 ht1 hf pos,
  represents t1 p1 ht1 -> ht1 ##ₘ hf ->
  follows hf (concatLoop fuel str t1 pos)
             (HeapC.concatLoop malloc fuel str p1 pos (ht1 ∪ hf)).
Proof.
  induction fuel as [|fuel IH]; intros t1 p1 ht1 hf pos Hrep Hdisj;
    cbn [HeapC.concatLoop concatLoop];
    (destruct (char_at_int str pos) as [c| | |]; [|done..]);
    cbn [mbind outcome_bind];
    (destruct (morePatterns c); [|by exists p1, ht1]).
  - done.
  - pose proof (heap_parseRepetition_follows str pos (ht1 ∪ hf)) as Hrep2.
    destruct (parseRepetition str pos) as [[t2 pos2]| | |];
      [|by rewrite Hrep2..].
    destruct Hrep2 as (x & p2 & -> & Hp2 & ->).
    cbn [mbind outcome_bind]. unfold HeapC.makeConcatenationPattern.
    destruct (malloc_total (<[p2:=symbolObject x]> (ht1 ∪ hf))) as [a Ha].
    rewrite Ha. cbn [defined mbind outcome_bind].
    destruct (represents_step t1 p1 ht1 hf x p2 a Hrep Hdisj Hp2
                (malloc_fresh _ _ Ha)) as (ht & Hrep' & Hdisj' & ->).
    by apply IH.
Qed.

Lemma heap_parseAlternation_follows str pos h :
  follows h (parseAlternation str pos) (HeapC.parseAlternation malloc str pos h).
Proof.
  unfold HeapC.parseAlternation, HeapC.parseConcatenation,
    parseAlternation, parseConcatenation.
  pose proof (heap_parseRepetition_follows str pos h) as Hrep1.
  destruct (parseRepetition str pos) as [[t1 pos1]| | |];
    [|by rewrite Hrep1..].
  destruct Hrep1 as (c & p1 & -> & Hp1 & ->). cbn [mbind outcome_bind].
  rewrite insert_union_singleton_l.
  pose proof (heap_concatLoop_follows str (length str) (SymbolPattern c) p1
                {[p1 := symbolObject c]} h pos1 eq_refl
                (proj2 (map_disjoint_singleton_l _ _ _) Hp1)) as Hloop.
  unfold follows in *.
  destruct (concatLoop (length str) str (SymbolPattern c) pos1)
    as [[t pos2]| | |]; [|by rewrite Hloop..].
  destruct Hloop as (q & ht & -> & Hrep & Hdisj).
  cbn [mbind outcome_bind]. eauto.
Qed.

(** X10. With a [malloc] that does not fail, parsing from a cursor inside a
    string no longer than [INT_MAX] never reads outside the string, never
    overflows the cursor and never runs on: it returns the pointer to a tree
    or exits with the invalid-pattern diagnostic. *)
Theorem parseAlternation_safe str (k : nat) h :
  (k <= length str)%nat -> Z.of_nat (length str) <= INT_MAX ->
  HeapC.parseAlternation malloc str (Z.of_nat k) h = Exit invalidPatternMessage \/
  exists pat pos' h',
    HeapC.parseAlternation malloc str (Z.of_nat k) h = Return (pat, pos', h').
Proof.
  intros Hk Hmax.
  pose proof (heap_parseAlternation_follows str (Z.of_nat k) h) as Hfollows.
  destruct (parseAlternation_safe_tree str k Hk Hmax) as [Htree|(t & pos' & Htree)];
    rewrite Htree in Hfollows; simpl in Hfollows.
  - by left.
  - right. destruct Hfollows as (pat & ht & -> & _). eauto.
Qed.






End HeapRun.

Section HeapMain.
Variable malloc : HeapC.heap -> option nat.
Hypothesis malloc_total : forall h, is_Some (malloc h).
Hypothesis malloc_fresh : forall h a, malloc h = Some a -> h !! a = None.
Variable DICT_POS : Z.
Variable can_open : list ascii -> bool.
Implicit Types (argv : list (list ascii)) (pattern : list ascii) (h : HeapC.heap).


End HeapMain.

Section HeapRunWitnesses.

Lemma firstFree_total (h : HeapC.heap) : is_Some (firstFree h).
Proof. by eexists. Qed.

Lemma parseAlternation_safe_witness :
  HeapC.parseAlternation firstFree (lit "ab*") (Z.of_nat 1) ∅
  = Exit invalidPatternMessage \/
  exists pat pos' h',
    HeapC.parseAlternation firstFree (lit "ab*") (Z.of_nat 1) ∅
    = Return (pat, pos', h').
Proof.
  apply (parseAlternation_safe firstFree firstFree_total firstFree_fresh
           (lit "ab*") 1 ∅);
    [simpl; lia | vm_compute; discriminate].
Defined.


End HeapRunWitnesses.
